(** * The prow list-watch bridge of ci-search

    A shallow embedding of [package prow] (second half of
    cmd/search/http.go): the job [Lister], the [ListWatcher] adapter and
    the [periodicWatcher] watch session with its background goroutine.

    The session is concurrent code.  It is modelled as an interleaving
    transition system: every goroutine has a program counter, one [step]
    executes one statement of one goroutine, and a schedule is a list of
    [action]s.  Channels, the mutex and the clock are modelled with the
    behaviour the Go language gives them (a send on a full channel blocks,
    closing a closed channel panics, a select picks among its ready
    cases).  klog calls do not touch the session and are left out. *)

From stdpp Require Import base option list strings pretty gmap.
From Stdlib Require Import ZArith Lia.

Local Open Scope Z_scope.

(* ================================================================== *)
(** * Values of the Kubernetes API machinery that the code builds      *)
(* ================================================================== *)

(** [time.Duration]: a count of nanoseconds. *)
Definition Duration := Z.

(** [metav1.Time]: seconds and nanoseconds since January 1, year 1 UTC, so
    that Go's zero [time.Time{}] is [zeroTime]. *)
Record Time := mkTime { t_sec : Z; t_nsec : Z }.
Definition zeroTime : Time := mkTime 0 0.

(** [schema.GroupResource]. *)
Record GroupResource := mkGroupResource { Group : string; Resource : string }.

(** [GroupResource.String]. *)
Definition GroupResource_String (gr : GroupResource) : string :=
  if decide (String.length (Group gr) = 0%nat) then Resource gr
  else (Resource gr ++ "." ++ Group gr)%string.

(** [metav1.StatusDetails] and [metav1.Status], the fields the
    constructors below set. *)
Record StatusDetails := mkStatusDetails {
  d_Name : string; d_Group : string; d_Kind : string }.

Record Status := mkStatus {
  st_Status : string;
  st_Message : string;
  st_Reason : string;
  st_Details : option StatusDetails;
  st_Code : Z }.

Definition StatusFailure : string := "Failure".
Definition StatusReasonNotFound : string := "NotFound".
Definition StatusReasonExpired : string := "Expired".
Definition StatusNotFound : Z := 404.
Definition StatusGone : Z := 410.

(** [errors.StatusError], and Go's [error]: a [*StatusError] or any other
    error value. *)
Record StatusError := mkStatusError { ErrStatus : Status }.

Inductive error :=
| statusError (e : StatusError)
| otherError (msg : string).

(** [errors.NewResourceExpired]. *)
Definition NewResourceExpired (message : string) : StatusError :=
  mkStatusError {| st_Status := StatusFailure; st_Code := StatusGone;
                   st_Reason := StatusReasonExpired; st_Message := message;
                   st_Details := None |}.

(** [errors.ReasonForError] and [errors.IsNotFound]. *)
Definition ReasonForError (e : error) : string :=
  match e with statusError e => st_Reason (ErrStatus e) | otherError _ => "" end.

Definition IsNotFound (e : error) : bool :=
  bool_decide (ReasonForError e = StatusReasonNotFound).

(** [labels.Set]: the labels of an object. *)
Definition Labels := gmap string string.

(** The job record: identity, state, timestamp, artifact location, labels. *)
Record Job := mkJob {
  job_id : string;
  job_state : string;
  job_time : Time;
  job_url : string;
  job_labels : Labels }.

(** A Go interface value ([interface{}], [runtime.Object]): the dynamic
    types that occur are [*Job], [*JobList], [*metav1.Status]; [otherObject]
    stands for a value of any other type, with its object metadata if it
    has some. *)
Inductive Object :=
| JobObject (j : Job)
| JobListObject (items : list Job)
| StatusObject (st : Status)
| otherObject (meta : option Labels).

(** [watch.EventType] and [watch.Event]. *)
Inductive EventType := Added | Modified | Deleted | Bookmark | Error.

Record Event := mkEvent { ev_Type : EventType; ev_Object : Object }.

(* ================================================================== *)
(** * Go channels, mutexes and outcomes of a statement                 *)
(* ================================================================== *)

(** What executing one statement does: it completes, it cannot proceed
    yet, or it panics. *)
Inductive res (A : Type) :=
| Ok (a : A)
| Blocked
| Panic.
Arguments Ok {A} a.
Arguments Blocked {A}.
Arguments Panic {A}.

Definition res_bind {A B} (r : res A) (f : A -> res B) : res B :=
  match r with Ok a => f a | Blocked => Blocked | Panic => Panic end.

(** A channel [make(chan A, cap)]: its queue, capacity and closed flag. *)
Record chan (A : Type) := mkChan {
  chan_buf : list A;
  chan_cap : nat;
  chan_closed : bool }.
Arguments mkChan {A}.
Arguments chan_buf {A}.
Arguments chan_cap {A}.
Arguments chan_closed {A}.

Definition make_chan (A : Type) (cap : nat) : chan A := mkChan [] cap false.

(** [c <- v]: panics on a closed channel and blocks while the buffer is
    full.  Where Go hands the value directly to a receiver that waits, here
    it goes through the queue and the receiver takes it in its next step.
    On a channel without buffer a send would need a receiver at the same
    time; the program never sends on such a channel. *)
Definition chan_send {A} (v : A) (c : chan A) : res (chan A) :=
  if chan_closed c then Panic
  else if decide (length (chan_buf c) < chan_cap c)%nat
       then Ok (mkChan (chan_buf c ++ [v]) (chan_cap c) false)
       else Blocked.

(** [v, ok := <-c]: the head of the queue; on an empty channel, the closed
    signal ([None]) when closed and blocking otherwise. *)
Definition chan_recv {A} (c : chan A) : res (option A * chan A) :=
  match chan_buf c with
  | v :: rest => Ok (Some v, mkChan rest (chan_cap c) (chan_closed c))
  | [] => if chan_closed c then Ok (None, c) else Blocked
  end.

(** [close(c)]: panics when [c] is closed already. *)
Definition chan_close {A} (c : chan A) : res (chan A) :=
  if chan_closed c then Panic
  else Ok (mkChan (chan_buf c) (chan_cap c) true).

(** Whether [<-c] can proceed, as a [select] asks. *)
Definition chan_ready {A} (c : chan A) : bool :=
  match chan_buf c with _ :: _ => true | [] => chan_closed c end.

(** Goroutines of one session: the background task and the callers of
    [Stop], numbered in call order. *)
Inductive tid :=
| TRun
| TCaller (i : nat).

Global Instance tid_eq_dec : EqDecision tid.
Proof. solve_decision. Defined.

(** [sync.Mutex]: unlocked, or locked (the goroutine that locked it is
    remembered for the proofs; Go does not record it). *)
Definition Mutex := option tid.

Definition Mutex_Lock (t : tid) (m : Mutex) : res Mutex :=
  match m with None => Ok (Some t) | Some _ => Blocked end.

(** Unlocking an unlocked mutex is a fatal error. *)
Definition Mutex_Unlock (m : Mutex) : res Mutex :=
  match m with Some _ => Ok None | None => Panic end.

(* ================================================================== *)
(** * The watch session                                                *)
(* ================================================================== *)

(** [Client] of the remote job tracker: only its address matters here. *)
Record Client := mkClient { client_url : string }.

Record ListWatcher := mkListWatcher {
  lw_client : Client;
  lw_interval : Duration }.

Record periodicWatcher := mkPW {
  pw_lw : ListWatcher;
  pw_ch : chan Event;
  pw_interval : Duration;
  pw_rv : Time;
  pw_lock : Mutex;
  pw_done : chan unit;
  pw_closed : bool }.

(** Where a goroutine stands inside [stop]. *)
Inductive stop_pc :=
| SLock        (* w.lock.Lock() *)
| SCheck       (* if !w.closed *)
| SCloseDone   (* close(w.done) *)
| SSetClosed   (* w.closed = true *)
| SUnlock.     (* deferred w.lock.Unlock() *)

(** Where the background goroutine stands inside [run]. *)
Inductive run_pc :=
| RStart                 (* spawned by go pw.run(); next: stop := time.After(w.interval) *)
| RSelect                (* select { case <-stop: ... case <-w.done: } *)
| RSend                  (* w.ch <- watch.Event{...} *)
| RStop (p : stop_pc)    (* w.stop() *)
| RDeferClose            (* deferred close(w.ch) *)
| RExited.

(** Where a caller of [Stop] stands. *)
Inductive Stop_pc :=
| PStop (p : stop_pc)    (* w.stop() *)
| PDrain                 (* deferred: for range w.ch { } *)
| PReturned.

(** The two cases of the select in [run]. *)
Inductive select_case := CaseTimer | CaseDone.

Global Instance stop_pc_eq_dec : EqDecision stop_pc.
Proof. solve_decision. Defined.
Global Instance run_pc_eq_dec : EqDecision run_pc.
Proof. solve_decision. Defined.
Global Instance Stop_pc_eq_dec : EqDecision Stop_pc.
Proof. solve_decision. Defined.
Global Instance select_case_eq_dec : EqDecision select_case.
Proof. solve_decision. Defined.

(** One session at run time: the shared [periodicWatcher], the clock, the
    timer made by [time.After], the program counters, and a record of what
    has happened (used only to state properties). *)
Record state := mkState {
  pw : periodicWatcher;
  now : Z;                      (* nanoseconds since the session was made *)
  timer : option Z;             (* when time.After was called *)
  run_at : run_pc;
  callers : list Stop_pc;
  woken_by : option select_case;(* the case the select took *)
  sent : list Event;            (* every event sent on ch, in order *)
  consumed : list Event;        (* events received through ResultChan() *)
  discarded : list Event;       (* events received and dropped by Stop *)
  ch_closes : nat;              (* completed close(w.ch) *)
  done_closes : nat }.          (* completed close(w.done) *)

Definition set_pw (f : periodicWatcher -> periodicWatcher) (σ : state) : state :=
  mkState (f (pw σ)) (now σ) (timer σ) (run_at σ) (callers σ) (woken_by σ)
          (sent σ) (consumed σ) (discarded σ) (ch_closes σ) (done_closes σ).

Definition set_run (r : run_pc) (σ : state) : state :=
  mkState (pw σ) (now σ) (timer σ) r (callers σ) (woken_by σ)
          (sent σ) (consumed σ) (discarded σ) (ch_closes σ) (done_closes σ).

Definition set_callers (l : list Stop_pc) (σ : state) : state :=
  mkState (pw σ) (now σ) (timer σ) (run_at σ) l (woken_by σ)
          (sent σ) (consumed σ) (discarded σ) (ch_closes σ) (done_closes σ).

Definition set_ch (c : chan Event) (w : periodicWatcher) : periodicWatcher :=
  mkPW (pw_lw w) c (pw_interval w) (pw_rv w) (pw_lock w) (pw_done w) (pw_closed w).

Definition set_lock (m : Mutex) (w : periodicWatcher) : periodicWatcher :=
  mkPW (pw_lw w) (pw_ch w) (pw_interval w) (pw_rv w) m (pw_done w) (pw_closed w).

Definition set_done (c : chan unit) (w : periodicWatcher) : periodicWatcher :=
  mkPW (pw_lw w) (pw_ch w) (pw_interval w) (pw_rv w) (pw_lock w) c (pw_closed w).

Definition set_closed (b : bool) (w : periodicWatcher) : periodicWatcher :=
  mkPW (pw_lw w) (pw_ch w) (pw_interval w) (pw_rv w) (pw_lock w) (pw_done w) b.

(** [newPeriodicWatcher]: the fresh session, with its goroutine spawned
    and not yet run. *)
Definition newPeriodicWatcher (lw : ListWatcher) (interval : Duration) (rv : Time)
  : state :=
  {| pw := {| pw_lw := lw; pw_interval := interval; pw_rv := rv;
              pw_ch := make_chan Event 100;
              pw_done := make_chan unit 0;
              pw_lock := None; pw_closed := false |};
     now := 0; timer := None;
     run_at := RStart; callers := [];
     woken_by := None; sent := []; consumed := []; discarded := [];
     ch_closes := 0; done_closes := 0 |}.

(** [time.After(d)] called at [t0]: the channel can be received from once
    [d] has elapsed. *)
Definition timer_ready (σ : state) : bool :=
  match timer σ with
  | Some t0 => bool_decide (t0 + pw_interval (pw σ) <= now σ)
  | None => false
  end.

(** One statement of [stop], executed by goroutine [t] standing at [p]:
    the next position ([None] once [stop] has returned) and the new state. *)
Definition stop (t : tid) (p : stop_pc) (σ : state) : res (option stop_pc * state) :=
  match p with
  | SLock =>
      res_bind (Mutex_Lock t (pw_lock (pw σ))) (fun m =>
      Ok (Some SCheck, set_pw (set_lock m) σ))
  | SCheck =>
      if pw_closed (pw σ) then Ok (Some SUnlock, σ) else Ok (Some SCloseDone, σ)
  | SCloseDone =>
      res_bind (chan_close (pw_done (pw σ))) (fun c =>
      Ok (Some SSetClosed,
          mkState (set_done c (pw σ)) (now σ) (timer σ) (run_at σ) (callers σ)
                  (woken_by σ) (sent σ) (consumed σ) (discarded σ)
                  (ch_closes σ) (S (done_closes σ))))
  | SSetClosed =>
      Ok (Some SUnlock, set_pw (set_closed true) σ)
  | SUnlock =>
      res_bind (Mutex_Unlock (pw_lock (pw σ))) (fun m =>
      Ok (None, set_pw (set_lock m) σ))
  end.

(** The scheduler's moves.  [ARun pick] lets the background goroutine
    execute its next statement; [pick] is the pseudo-random choice the
    select makes when both of its cases are ready.  [ACallStop] is a new
    call of [w.Stop()], [AStop i] the next statement of the [i]-th call,
    [AReceive] a receive by a reader of [w.ResultChan()], and [ATick dt]
    the passing of [dt] nanoseconds. *)
Inductive action :=
| ATick (dt : Z)
| ARun (pick : select_case)
| ACallStop
| AStop (i : nat)
| AReceive.

Section Session.

(** [time.Duration.String], as [fmt.Sprintf] applies it for [%s]. *)
Variable Duration_String : Duration -> string.

(** The event [run] sends when the timer fires. *)
Definition expiredEvent (interval : Duration) : Event :=
  {| ev_Type := Error;
     ev_Object := StatusObject (ErrStatus (NewResourceExpired
       ("watch closed after " ++ Duration_String interval ++ ", resync required"))) |}.

(** One statement of [run]. *)
Definition run (pick : select_case) (σ : state) : res state :=
  match run_at σ with
  | RStart =>
      Ok (mkState (pw σ) (now σ) (Some (now σ)) RSelect (callers σ) (woken_by σ)
                  (sent σ) (consumed σ) (discarded σ) (ch_closes σ) (done_closes σ))
  | RSelect =>
      let take (c : select_case) :=
        Ok (mkState (pw σ) (now σ) (timer σ)
                    (match c with CaseTimer => RSend | CaseDone => RDeferClose end)
                    (callers σ) (Some c)
                    (sent σ) (consumed σ) (discarded σ) (ch_closes σ) (done_closes σ)) in
      match timer_ready σ, chan_ready (pw_done (pw σ)) with
      | false, false => Blocked
      | true, false => take CaseTimer
      | false, true => take CaseDone
      | true, true => take pick
      end
  | RSend =>
      let ev := expiredEvent (pw_interval (pw σ)) in
      res_bind (chan_send ev (pw_ch (pw σ))) (fun c =>
      Ok (mkState (set_ch c (pw σ)) (now σ) (timer σ) (RStop SLock) (callers σ)
                  (woken_by σ) (sent σ ++ [ev]) (consumed σ) (discarded σ)
                  (ch_closes σ) (done_closes σ)))
  | RStop p =>
      res_bind (stop TRun p σ) (fun '(next, σ') =>
      Ok (set_run (match next with Some p' => RStop p' | None => RDeferClose end) σ'))
  | RDeferClose =>
      res_bind (chan_close (pw_ch (pw σ))) (fun c =>
      Ok (mkState (set_ch c (pw σ)) (now σ) (timer σ) RExited (callers σ)
                  (woken_by σ) (sent σ) (consumed σ) (discarded σ)
                  (S (ch_closes σ)) (done_closes σ)))
  | RExited => Blocked
  end.

(** One statement of the [i]-th call of [Stop]: [w.stop()], then the
    deferred loop that receives from [w.ch] until it is closed. *)
Definition Stop (i : nat) (σ : state) : res state :=
  match callers σ !! i with
  | None => Blocked
  | Some (PStop p) =>
      res_bind (stop (TCaller i) p σ) (fun '(next, σ') =>
      Ok (set_callers
            (<[i := match next with Some p' => PStop p' | None => PDrain end]>
               (callers σ')) σ'))
  | Some PDrain =>
      res_bind (chan_recv (pw_ch (pw σ))) (fun '(v, c) =>
      match v with
      | Some e =>
          Ok (mkState (set_ch c (pw σ)) (now σ) (timer σ) (run_at σ) (callers σ)
                      (woken_by σ) (sent σ) (consumed σ) (discarded σ ++ [e])
                      (ch_closes σ) (done_closes σ))
      | None => Ok (set_callers (<[i := PReturned]> (callers σ)) σ)
      end)
  | Some PReturned => Blocked
  end.

(** A receive on [w.ResultChan()] by some other goroutine. *)
Definition ResultChan (σ : state) : chan Event := pw_ch (pw σ).

Definition receive (σ : state) : res state :=
  res_bind (chan_recv (ResultChan σ)) (fun '(v, c) =>
  match v with
  | Some e =>
      Ok (mkState (set_ch c (pw σ)) (now σ) (timer σ) (run_at σ) (callers σ)
                  (woken_by σ) (sent σ) (consumed σ ++ [e]) (discarded σ)
                  (ch_closes σ) (done_closes σ))
  | None => Ok σ
  end).

Definition step (a : action) (σ : state) : res state :=
  match a with
  | ATick dt =>
      if decide (0 <= dt)
      then Ok (mkState (pw σ) (now σ + dt) (timer σ) (run_at σ) (callers σ)
                       (woken_by σ) (sent σ) (consumed σ) (discarded σ)
                       (ch_closes σ) (done_closes σ))
      else Blocked
  | ARun pick => run pick σ
  | ACallStop => Ok (set_callers (callers σ ++ [PStop SLock]) σ)
  | AStop i => Stop i σ
  | AReceive => receive σ
  end.

(** Running a schedule: the state it leads to, or the first statement
    that blocks or panics. *)
Fixpoint exec (sched : list action) (σ : state) : res state :=
  match sched with
  | [] => Ok σ
  | a :: rest => res_bind (step a σ) (exec rest)
  end.

End Session.

(* ================================================================== *)
(** * The list-watch adapter                                           *)
(* ================================================================== *)

(** [metav1.ListOptions]. *)
Record ListOptions := mkListOptions {
  LabelSelector : string;
  FieldSelector : string;
  ResourceVersion : string;
  TimeoutSeconds : option Z;
  Limit : Z;
  Continue : string }.

(** Everything the adapter acts on: the remote job tracker behind the
    [Client], the number of [ListJobs] calls completed, and the sessions
    made so far, each with its background goroutine. *)
Record world (Remote : Type) := mkWorld {
  remote : Remote;
  fetches : nat;
  sessions : list state }.
Arguments mkWorld {Remote}.
Arguments remote {Remote}.
Arguments fetches {Remote}.
Arguments sessions {Remote}.

(** Sessions whose goroutine has not exited. *)
Definition goroutines {Remote} (w : world Remote) : nat :=
  length (filter (λ σ, run_at σ ≠ RExited) (sessions w)).

Section Adapter.

(** [time.Parse(time.RFC3339, str)] of the Go library. *)
Variable time_Parse_RFC3339 : string → error + Time.

(** The remote job tracker and [Client.ListJobs], which is defined
    elsewhere in the package: one call answers with the job list or an
    error and may change the tracker. *)
Variable Remote : Type.
Variable ListJobs : Client → Remote → (error + list Job) * Remote.

(** Modelled from the spec: [metav1.Time.UnmarshalQueryParameter] belongs
    to k8s.io/apimachinery and is not among the sources of the package.
    The spec has the token be a serialized timestamp that must go through
    standard timestamp parsing ([time_Parse_RFC3339]) and be rejected
    otherwise; the library function takes the empty token, and the token
    null of old clients, to the zero time before it parses.  [pt.Local()]
    is the instant [pt]. *)
Definition UnmarshalQueryParameter (str : string) : error + Time :=
  if decide (String.length str = 0%nat) then inr zeroTime
  else if decide (String.length str = 4%nat ∧ str = "null") then inr zeroTime
  else match time_Parse_RFC3339 str with
       | inl err => inl err
       | inr pt => inr pt
       end.

(** [lw.client.ListJobs(context.Background())], counted. *)
Definition call_ListJobs (c : Client) (w : world Remote)
  : (error + list Job) * world Remote :=
  let '(r, remote') := ListJobs c (remote w) in
  (r, mkWorld remote' (S (fetches w)) (sessions w)).

(** [ListWatcher.List]. *)
Definition ListWatcher_List (lw : ListWatcher) (options : ListOptions)
  (w : world Remote) : (error + Object) * world Remote :=
  let '(r, w') := call_ListJobs (lw_client lw) w in
  match r with
  | inl err => (inl err, w')
  | inr list => (inr (JobListObject list), w')
  end.

(** [ListWatcher.Watch]: the handle it returns is the position of the new
    session in [sessions]. *)
Definition ListWatcher_Watch (lw : ListWatcher) (options : ListOptions)
  (w : world Remote) : (error + nat) * world Remote :=
  match UnmarshalQueryParameter (ResourceVersion options) with
  | inl err => (inl err, w)
  | inr rv =>
      (inr (length (sessions w)),
       mkWorld (remote w) (fetches w)
               (sessions w ++ [newPeriodicWatcher lw (lw_interval lw) rv]))
  end.

End Adapter.

(* ================================================================== *)
(** * The job lister                                                   *)
(* ================================================================== *)

(** [labels.Selector], an interface: the two methods the cache uses. *)
Record Selector := mkSelector {
  sel_Empty : bool;
  sel_Matches : Labels → bool }.

(** [cache.Indexer], an interface: the two methods reached from the
    lister.  [GetByKey] answers [(item, exists, err)]. *)
Class Indexer (I : Type) := {
  GetByKey : I → string → option Object * bool * option error;
  Store_List : I → list Object }.

(** [meta.Accessor]: the object metadata, for the types that carry some. *)
Definition meta_Accessor (m : Object) : error + Labels :=
  match m with
  | JobObject j => inr (job_labels j)
  | otherObject (Some l) => inr l
  | _ => inl (otherError "object does not implement the Object interfaces")
  end.

(** Modelled from the spec: [cache.ListAll] belongs to k8s.io/client-go and
    is not among the sources of the package.  The spec has the lister return all cached records
    matching the selector and fail only if the enumeration of the indexer
    fails; the library function walks [store.List()], hands every object
    to [appendFn] when the selector is empty, and otherwise reads the
    labels of each object, failing on an object without metadata, and
    hands over the objects whose labels match.  [appendFn] acts on a
    state [A] and may panic. *)
Fixpoint ListAll_loop {A} (selectAll : bool) (selector : Selector)
  (appendFn : Object → A → res A) (items : list Object) (acc : A)
  : res (A * option error) :=
  match items with
  | [] => Ok (acc, None)
  | m :: rest =>
      if selectAll then
        res_bind (appendFn m acc) (ListAll_loop selectAll selector appendFn rest)
      else
        match meta_Accessor m with
        | inl err => Ok (acc, Some err)
        | inr l =>
            if sel_Matches selector l then
              res_bind (appendFn m acc) (ListAll_loop selectAll selector appendFn rest)
            else ListAll_loop selectAll selector appendFn rest acc
        end
  end.

Definition ListAll {I} `{Indexer I} {A} (store : I) (selector : Selector)
  (appendFn : Object → A → res A) (acc : A) : res (A * option error) :=
  ListAll_loop (sel_Empty selector) selector appendFn (Store_List store) acc.

(** [errors.NewNotFound]; [quote] is Go's [%q]. *)
Definition NewNotFound (quote : string → string)
  (qualifiedResource : GroupResource) (name : string) : StatusError :=
  mkStatusError
    {| st_Status := StatusFailure; st_Code := StatusNotFound;
       st_Reason := StatusReasonNotFound;
       st_Details := Some {| d_Group := Group qualifiedResource;
                             d_Kind := Resource qualifiedResource;
                             d_Name := name |};
       st_Message := GroupResource_String qualifiedResource ++ " " ++
                     quote name ++ " not found" |}.

Section JobLister.

Context {I : Type} `{Indexer I}.

(** [strconv.Quote], behind the [%q] of [NewNotFound]. *)
Variable strconv_Quote : string → string.

Record Lister := mkLister {
  indexer : I;
  resource : GroupResource }.

(** [NewLister]. *)
Definition NewLister (indexer : I) : Lister :=
  {| indexer := indexer;
     resource := {| Group := "search.openshift.io"; Resource := "prow" |} |}.

(** The type assertion of [m] to a job pointer: it panics on another
    dynamic type. *)
Definition assert_Job (m : option Object) : res Job :=
  match m with
  | Some (JobObject j) => Ok j
  | _ => Panic
  end.

(** [Lister.List]: the pair [(ret, err)] it returns, next to the lister as
    the call leaves it. *)
Definition Lister_List (s : Lister) (selector : Selector)
  : Lister * res (list Job * option error) :=
  (s, ListAll (indexer s) selector
        (λ m ret, res_bind (assert_Job (Some m)) (λ j, Ok (ret ++ [j]))) []).

(** [Lister.Get]. *)
Definition Lister_Get (s : Lister) (id : string)
  : Lister * res (error + Job) :=
  let '(obj, exists_, err) := GetByKey (indexer s) id in
  (s, match err with
      | Some e => Ok (inl e)
      | None =>
          if negb exists_
          then Ok (inl (statusError (NewNotFound strconv_Quote (resource s) id)))
          else res_bind (assert_Job obj) (λ j, Ok (inr j))
      end).

End JobLister.
Arguments Lister I : clear implicits.

(** Modelled from the spec: the generic keyed store behind the indexer is
    not among the sources of the package.  The spec has it be a keyed store of job records; here
    it is a finite map from keys to objects whose lookup never fails and
    whose enumeration is the list of its values. *)
Definition mapStore := gmap string Object.

#[global] Instance mapStore_Indexer : Indexer mapStore := {
  GetByKey c key := (c !! key, bool_decide (is_Some (c !! key)), None);
  Store_List c := (map_to_list c).*2 }.

(* ================================================================== *)
(** * Invariants and measures of a session                             *)
(* ================================================================== *)

Definition holds_lock (p : stop_pc) : bool :=
  match p with SLock => false | _ => true end.

(** What a goroutine standing at [p] inside [stop] knows about [w.done]
    and [w.closed]. *)
Definition stop_pc_ok (w : periodicWatcher) (p : stop_pc) : Prop :=
  match p with
  | SLock | SCheck => True
  | SCloseDone => chan_closed (pw_done w) = false ∧ pw_closed w = false
  | SSetClosed => chan_closed (pw_done w) = true ∧ pw_closed w = false
  | SUnlock => pw_closed w = true
  end.

(** The invariant of the lock, over the shared object [w] and the map [f]
    from goroutines to their position inside [stop] ([None]: not inside). *)
Record LockInv (w : periodicWatcher) (f : tid → option stop_pc) : Prop := {
  li_held : ∀ t p, f t = Some p → holds_lock p = true → pw_lock w = Some t;
  li_owner : ∀ t, pw_lock w = Some t → ∃ p, f t = Some p ∧ holds_lock p = true;
  li_pc : ∀ t p, f t = Some p → stop_pc_ok w p;
  li_closed : pw_closed w = true → chan_closed (pw_done w) = true;
  li_pending : chan_closed (pw_done w) = true → pw_closed w = false →
               ∃ t, f t = Some SSetClosed;
  li_done_buf : chan_buf (pw_done w) = [] }.

(** [f'] is [f] with goroutine [u] moved to [next]. *)
Definition moved (f f' : tid → option stop_pc) (u : tid) (next : option stop_pc) : Prop :=
  ∀ t, f' t = if decide (t = u) then next else f t.

(** The position inside [stop] that a program counter stands for. *)
Definition Stop_pc_stop (pc : Stop_pc) : option stop_pc :=
  match pc with PStop p => Some p | _ => None end.

Definition run_pc_stop (r : run_pc) : option stop_pc :=
  match r with RStop p => Some p | _ => None end.

(** The position of goroutine [t] inside [stop], if it is there. *)
Definition in_stop (σ : state) (t : tid) : option stop_pc :=
  match t with
  | TRun => match run_at σ with RStop p => Some p | _ => None end
  | TCaller i => match callers σ !! i with Some (PStop p) => Some p | _ => None end
  end.

Definition ch (σ : state) : chan Event := pw_ch (pw σ).
Definition done_closed (σ : state) : bool := chan_closed (pw_done (pw σ)).

(** What holds of a session when a caller of [Stop] stands at [pc]. *)
Definition caller_ok (σ : state) (pc : Stop_pc) : Prop :=
  match pc with
  | PStop _ => True
  | PDrain => pw_closed (pw σ) = true
  | PReturned =>
      pw_closed (pw σ) = true ∧ chan_closed (ch σ) = true ∧ chan_buf (ch σ) = []
  end.

(** Work left to the goroutines: every statement a goroutine executes
    lowers [weight]. *)
Definition stop_weight (p : stop_pc) : nat :=
  match p with
  | SLock => 5 | SCheck => 4 | SCloseDone => 3 | SSetClosed => 2 | SUnlock => 1
  end.

Definition run_weight (r : run_pc) : nat :=
  match r with
  | RStart => 10 | RSelect => 9 | RSend => 8
  | RStop p => 1 + stop_weight p
  | RDeferClose => 1 | RExited => 0
  end.

Definition Stop_weight (pc : Stop_pc) : nat :=
  match pc with
  | PStop p => 1 + stop_weight p
  | PDrain => 1
  | PReturned => 0
  end.

Definition weight (σ : state) : nat :=
  run_weight (run_at σ) + sum_list (Stop_weight <$> callers σ)
  + length (chan_buf (ch σ)).

(** Statements executed by goroutines of the session, and calls of
    [Stop], in a schedule. *)
Definition is_goroutine_step (a : action) : bool :=
  match a with ARun _ | AStop _ => true | _ => false end.

Definition goroutine_steps (sched : list action) : nat :=
  length (filter (λ a, is_goroutine_step a = true) sched).

Definition is_Stop_call (a : action) : bool :=
  match a with ACallStop => true | _ => false end.

Definition Stop_calls (sched : list action) : nat :=
  length (filter (λ a, is_Stop_call a = true) sched).

Definition is_receive (a : action) : bool :=
  match a with AReceive => true | _ => false end.

(** The move that lets goroutine [t] execute its next statement. *)
Definition action_of (t : tid) : action :=
  match t with TRun => ARun CaseTimer | TCaller i => AStop i end.

(** All goroutines of the session are through. *)
Definition finished (σ : state) : Prop :=
  run_at σ = RExited ∧ Forall (λ pc, pc = PReturned) (callers σ).

(** The deadline of the timer, once [time.After] has been called. *)
Definition deadline (σ : state) : option Z :=
  (λ t0, t0 + pw_interval (pw σ)) <$> timer σ.

Section SessionInvariant.

Variable Duration_String : Duration → string.

(** The invariant of a session made with interval [interval]. *)
Record SessInv (interval : Duration) (σ : state) : Prop := {
  si_lock : LockInv (pw σ) (in_stop σ);
  si_interval : pw_interval (pw σ) = interval;
  si_cap : chan_cap (ch σ) = 100%nat;
  si_ch_closed : chan_closed (ch σ) = bool_decide (run_at σ = RExited);
  si_ch_closes : ch_closes σ = if chan_closed (ch σ) then 1%nat else 0%nat;
  si_done_closes : done_closes σ = if done_closed σ then 1%nat else 0%nat;
  si_now : 0 ≤ now σ;
  si_timer : match timer σ with
             | None => run_at σ = RStart
             | Some t0 => run_at σ ≠ RStart ∧ 0 ≤ t0 ≤ now σ
             end;
  si_history :
    match run_at σ with
    | RStart | RSelect => woken_by σ = None ∧ sent σ = []
    | RSend => woken_by σ = Some CaseTimer ∧ sent σ = []
    | RStop _ =>
        woken_by σ = Some CaseTimer ∧
        sent σ = [expiredEvent Duration_String interval]
    | RDeferClose | RExited =>
        (woken_by σ = Some CaseTimer ∧
         sent σ = [expiredEvent Duration_String interval] ∧
         pw_closed (pw σ) = true) ∨
        (woken_by σ = Some CaseDone ∧ sent σ = [])
    end;
  si_timer_case : woken_by σ = Some CaseTimer → timer_ready σ = true;
  si_done_case : woken_by σ = Some CaseDone → done_closed σ = true;
  si_done_by : done_closed σ = true ∨ woken_by σ = Some CaseDone →
               callers σ ≠ [] ∨ woken_by σ = Some CaseTimer;
  si_buf : sent σ = consumed σ ++ discarded σ ++ chan_buf (ch σ);
  si_callers : ∀ i pc, callers σ !! i = Some pc → caller_ok σ pc }.

(** States a schedule can lead to from a fresh session. *)
Definition reachable (lw : ListWatcher) (interval : Duration) (rv : Time)
  (σ : state) : Prop :=
  ∃ sched, exec Duration_String sched (newPeriodicWatcher lw interval rv) = Ok σ.

(** The scheduler's move [a] can be made in [σ]. *)
Definition enabled (a : action) (σ : state) : Prop :=
  ∃ σ', step Duration_String a σ = Ok σ'.

End SessionInvariant.

(** The job records among a list of objects. *)
Definition jobs_of (items : list Object) : list Job :=
  omap (λ m, match m with JobObject j => Some j | _ => None end) items.

(* ================================================================== *)
(** * Sample sessions, schedules and caches                            *)
(* ================================================================== *)

(** Durations below a microsecond print as a count of nanoseconds. *)
Definition show_ns (d : Duration) : string := (pretty d ++ "ns")%string.

Definition sample_lw : ListWatcher :=
  {| lw_client := {| client_url := "https://deck.example" |}; lw_interval := 5 |}.

Definition sample_session : state := newPeriodicWatcher sample_lw 5 zeroTime.

Definition sample_expired : Event :=
  {| ev_Type := Error;
     ev_Object := StatusObject
       {| st_Status := "Failure";
          st_Message := "watch closed after 5ns, resync required";
          st_Reason := "Expired";
          st_Details := None;
          st_Code := 410 |} |}.

(** Nobody stops and nobody reads: the timer is made, five nanoseconds
    pass, and the goroutine runs to its end. *)
Definition sched_expiry : list action :=
  [ARun CaseTimer; ATick 5] ++ replicate 8 (ARun CaseTimer).

(** Two calls of [Stop] race the timer: the select has taken the timer
    case when the first call closes [w.done]; the second call finds the
    flag set; the first call drains the event; the goroutine exits and
    both calls return. *)
Definition sched_two_stops : list action :=
  [ARun CaseTimer; ATick 5; ARun CaseDone; ACallStop; ACallStop;
   AStop 0; AStop 0; ARun CaseTimer; AStop 0; AStop 0; AStop 0;
   AStop 1; AStop 1; AStop 1; AStop 0;
   ARun CaseTimer; ARun CaseTimer; ARun CaseTimer; ARun CaseTimer;
   AStop 0; AStop 1].

(** [Stop] is called, and has closed [w.done], before the goroutine gets
    to its select, which it does before the interval has elapsed. *)
Definition sched_stop_first : list action :=
  [ARun CaseTimer; ACallStop; AStop 0; AStop 0; AStop 0; AStop 0; AStop 0;
   ATick 3; ARun CaseTimer; ARun CaseTimer; AStop 0].

(** [Stop] is called, and has closed [w.done], at time 0 ... *)
Definition sched_stop_early : list action :=
  [ARun CaseTimer; ACallStop; AStop 0; AStop 0; AStop 0; AStop 0; AStop 0].

(** ... but the goroutine gets to its select only when the interval has
    elapsed, the select picks the timer, the event is sent, and a reader
    receives it. *)
Definition sched_late_select : list action :=
  [ATick 5; ARun CaseTimer; ARun CaseTimer; AReceive].

(** [Stop] is called at time 4 and has taken the lock ... *)
Definition sched_stop_at_4 : list action :=
  [ARun CaseTimer; ATick 4; ACallStop; AStop 0].

(** ... but the timer fires before [w.done] is closed: the select finds
    the timer case alone ready, whatever it would pick, and the event is
    sent. *)
Definition sched_timer_first : list action :=
  [ATick 1; ARun CaseDone; ARun CaseDone].

(** The final state of a sample schedule. *)
Definition final_of (sched : list action) : state :=
  match exec show_ns sched sample_session with
  | Ok σ => σ
  | _ => sample_session
  end.

(** A job tracker that always answers with the same two jobs, and a
    parser that takes one token only. *)
Definition job_a : Job :=
  {| job_id := "a"; job_state := "failure"; job_time := zeroTime;
     job_url := "https://deck.example/a";
     job_labels := {[ "state" := "failure" ]} |}.

Definition job_b : Job :=
  {| job_id := "b"; job_state := "success"; job_time := zeroTime;
     job_url := "https://deck.example/b";
     job_labels := {[ "state" := "success" ]} |}.

Definition sample_parse (str : string) : error + Time :=
  if decide (str = "0001-01-01T00:00:05Z") then inr (mkTime 5 0)
  else inl (otherError "parsing time: cannot parse").

Definition sample_ListJobs (c : Client) (r : unit) : (error + list Job) * unit :=
  (inr [job_a; job_b], r).

Definition sample_world : world unit :=
  {| remote := (); fetches := 0; sessions := [] |}.

Definition sample_store : mapStore :=
  {[ "a" := JobObject job_a; "b" := JobObject job_b ]}.

(** Quoting as [%q] does it for a name without special characters. *)
Definition sample_quote (s : string) : string :=
  String (Ascii.ascii_of_nat 34) (s ++ String (Ascii.ascii_of_nat 34) EmptyString).

(** The selector [state=failure]. *)
Definition state_is_failure : Selector :=
  {| sel_Empty := false;
     sel_Matches := λ l, bool_decide (l !! "state" = Some "failure") |}.

(* ================================================================== *)
(** * The search page of [package main]                                *)
(* ================================================================== *)

(** A double quote, and a line feed. *)
Definition dq : string := String (Ascii.ascii_of_nat 34) EmptyString.
Definition lf : string := String (Ascii.ascii_of_nat 10) EmptyString.

(** Go's [int] on the 64-bit platforms the server runs on: arithmetic
    wraps around. *)
Definition int_wrap (x : Z) : Z := (x + 2 ^ 63) `mod` 2 ^ 64 - 2 ^ 63.

(** [time.Hour], in nanoseconds. *)
Definition Hour : Duration := 3600 * 1000000000.

(** [err.Error()]. *)
Definition error_Error (e : error) : string :=
  match e with
  | statusError e => st_Message (ErrStatus e)
  | otherError msg => msg
  end.

(** [Index]: the fields [Search], [SearchType], [MaxAge] and [Context]
    that the page handler sets. *)
Record Index := mkIndex {
  ix_Search : string;
  ix_SearchType : string;
  ix_MaxAge : Duration;
  ix_Context : Z }.

(** [options]: the field [MaxAge] that the page handler reads. *)
Record options := mkOptions { o_MaxAge : Duration }.

(** An [http.Request] after [ParseForm]: the error of the parse, and the
    form. *)
Record Request := mkRequest {
  req_ParseForm : option error;
  req_Form : gmap string (list string) }.

(** [req.FormValue]: the first value of the key, or the empty string. *)
Definition FormValue (req : Request) (key : string) : string :=
  match req_Form req !! key with
  | Some (v :: _) => v
  | _ => ""
  end.

(** A call of [http.Error(w, error, code)]. *)
Inductive reply := http_Error (error : string) (code : Z).

Definition StatusInternalServerError : Z := 500.

(** [intSelected] and [durationSelected]. *)
Definition intSelected (current expected : Z) : string :=
  if decide (current = expected) then "selected" else "".

Definition durationSelected (current expected : Duration) : string :=
  if decide (current = expected) then "selected" else "".

(** An entry of a drop-down list, [<option value="%s" %s>%s</option>],
    from its value, its selected attribute and its label; the entries that
    the handler formats with the attribute written out have the same
    shape. *)
Definition Choice : Type := string * string * string.

Definition option_tag (c : Choice) : string :=
  ("<option value=" ++ dq ++ c.1.1 ++ dq ++ " " ++ c.1.2 ++ ">" ++ c.2
   ++ "</option>")%string.

(** [bytes.Index] of a one-byte separator, with the two slices around the
    match. *)
Fixpoint split_first (sep : Ascii.ascii) (s : string) : option (string * string) :=
  match s with
  | EmptyString => None
  | String c s' =>
      if decide (c = sep) then Some (EmptyString, s')
      else match split_first sep s' with
           | Some (a, b) => Some (String c a, b)
           | None => None
           end
  end.

(** [bytes.SplitN(s, sep, n)] for a one-byte separator and [n >= 0]: at
    most [n] pieces, the last one the rest of [s] unsplit. *)
Fixpoint SplitN (s : string) (sep : Ascii.ascii) (n : nat) : list string :=
  match n with
  | O => []
  | S n' =>
      match n' with
      | O => [s]
      | S _ =>
          match split_first sep s with
          | None => [s]
          | Some (a, b) => a :: SplitN b sep n'
          end
      end
  end.

(** [filepath.Separator] on the systems the server runs on. *)
Definition Separator : Ascii.ascii := Ascii.ascii_of_nat 47.

(** [parts[i]]: out of range it panics. *)
Definition index_at (parts : list string) (i : Z) : res string :=
  if decide (0 ≤ i) then
    match parts !! Z.to_nat i with
    | Some p => Ok p
    | None => Panic
    end
  else Panic.

(** [bytes.TrimRight(b, " ")]. *)
Fixpoint TrimRight_space (s : string) : string :=
  match s with
  | EmptyString => EmptyString
  | String c s' =>
      let t := TrimRight_space s' in
      if decide (c = Ascii.ascii_of_nat 32 ∧ t = EmptyString) then EmptyString
      else String c t
  end.

(** The loop [for i := len(lines) - 1; i >= 0; i--] that cuts [lines]
    while its last element is empty. *)
Fixpoint cut_trailing_empty (lines : list string) : list string :=
  match lines with
  | [] => []
  | l :: rest =>
      let r := cut_trailing_empty rest in
      if decide (r = [] ∧ String.length l = 0%nat) then [] else l :: r
  end.

(** How a result name is shown: as a file of a pull request job, as a
    file of another job, or as it is. *)
Inductive Header :=
| HPull (filename pr prefix name : string)
| HBuild (filename prefix name : string)
| HPlain (name : string).

(** One invocation of the function that [executeGrep] is given. *)
Record grepCall := mkGrepCall {
  gc_name : string;
  gc_matches : list string;
  gc_moreLines : Z }.

(** What the renderers do to the buffered writer, statement by
    statement. *)
Inductive event :=
| EFlush                 (* bw.Flush() *)
| ESeparator             (* the dash between two matches of one file *)
| EClose                 (* the closing tags of a result *)
| EOpen                  (* the opening div of a result *)
| EHeader (s : string)   (* the heading of a result, formatted *)
| ELine (line : string)  (* template.HTMLEscape(bw, line); fmt.Fprintln(bw) *)
| EMore (n : Z)          (* the note on lines not shown *)
| ECount (n : Z).        (* the number of matches of a result *)

Global Instance event_eq_dec : EqDecision event.
Proof. solve_decision. Defined.

(** The state the closure of [renderWithContext] keeps. *)
Record renderState := mkRenderState {
  rs_count : Z;
  rs_lineCount : Z;
  rs_lastName : string;
  rs_out : list event }.

(** The state the closure of [renderSummary] keeps. *)
Record summaryState := mkSummaryState {
  ss_count : Z;
  ss_currentLines : Z;
  ss_lastName : string;
  ss_out : list event }.

Section SearchPage.

(** Functions of the Go library: [template.HTMLEscapeString] (which
    [template.HTMLEscape] applies to bytes), [strconv.Atoi],
    [strconv.Itoa] (the [%d] of [fmt]), [time.ParseDuration] and
    [time.Duration.String]. *)
Variable HTMLEscapeString : string → string.
Variable strconv_Atoi : string → error + Z.
Variable strconv_Itoa : Z → string.
Variable time_ParseDuration : string → error + Duration.
Variable Duration_String : Duration → string.

(** The entries of the context drop-down that [handleIndex] builds. *)
Definition contextChoices (context : Z) : list Choice :=
  [ ("-1", intSelected 1 context, "Links");
    ("0", intSelected 0 context, "No context");
    ("1", intSelected 1 context, "1 lines");
    ("2", intSelected 2 context, "2 lines");
    ("3", intSelected 3 context, "3 lines");
    ("5", intSelected 5 context, "5 lines");
    ("7", intSelected 7 context, "7 lines");
    ("10", intSelected 10 context, "10 lines");
    ("15", intSelected 15 context, "15 lines") ] ++
  (if decide (context ∈ [-1; 0; 1; 2; 3; 5; 7; 10; 15]) then []
   else let context := HTMLEscapeString (strconv_Itoa context) in
        [(context, "selected", context)]).

(** The entries of the type drop-down. *)
Definition searchTypeChoices (SearchType : string) : list Choice :=
  (λ searchType,
     (HTMLEscapeString searchType,
      if decide (searchType = SearchType) then "selected" else "",
      HTMLEscapeString searchType)) <$> ["junit"; "build-log"; "all"].

(** The entries of the age drop-down. *)
Definition maxAgeChoices (MaxAge : Duration) : list Choice :=
  [ ("6h", durationSelected (6 * Hour) MaxAge, "6h");
    ("12h", durationSelected (12 * Hour) MaxAge, "12h");
    ("24h", durationSelected (24 * Hour) MaxAge, "1d");
    ("48h", durationSelected (48 * Hour) MaxAge, "2d");
    ("168h", durationSelected (168 * Hour) MaxAge, "7d");
    ("336h", durationSelected (336 * Hour) MaxAge, "14d") ] ++
  (if decide (MaxAge ∈ [6 * Hour; 12 * Hour; 24 * Hour; 48 * Hour;
                        168 * Hour; 336 * Hour]) then []
   else if decide (MaxAge = 0) then [("0", "selected", "No limit")]
   else let maxAge := HTMLEscapeString (Duration_String MaxAge) in
        [(maxAge, "selected", maxAge)]).

(** What [handleIndex] has worked out when it starts to write the page. *)
Record pageParams := mkPageParams {
  pp_index : Index;
  pp_contextOptions : list string;
  pp_searchTypeOptions : list string;
  pp_maxAgeOptions : list string }.

(** [handleIndex], from its start to the first write of the page: the
    reading and checking of the request, which ends in a call of
    [http.Error] or in the index and the three lists of options. *)
Definition handleIndex_params (o : options) (req : Request) : reply + pageParams :=
  match req_ParseForm req with
  | Some err =>
      inl (http_Error ("Bad input: " ++ error_Error err) StatusInternalServerError)
  | None =>
  let index := {| ix_Context := 2; ix_MaxAge := 7 * 24 * Hour;
                  ix_Search := ""; ix_SearchType := "" |} in
  let search := FormValue req "search" in
  let index :=
    if decide (0 < String.length search)%nat
    then mkIndex search (ix_SearchType index) (ix_MaxAge index) (ix_Context index)
    else index in
  let context := FormValue req "context" in
  match (if decide (0 < String.length context)%nat then
           match strconv_Atoi context with
           | inl err => None
           | inr num =>
               if decide (num < -1 ∨ num > 15) then None
               else Some (mkIndex (ix_Search index) (ix_SearchType index)
                                  (ix_MaxAge index) num)
           end
         else Some index) with
  | None =>
      inl (http_Error "?context must be a number between -1 and 15"
                      StatusInternalServerError)
  | Some index =>
  let contextOptions := option_tag <$> contextChoices (ix_Context index) in
  let type := FormValue req "type" in
  match (if decide (type = "junit") then Some "junit"
         else if decide (type = "build-log") then Some "build-log"
         else if decide (type = "all" ∨ type = "") then Some "all"
         else None) with
  | None =>
      inl (http_Error "?search must be 'junit', 'build-log', or 'all'"
                      StatusInternalServerError)
  | Some SearchType =>
  let index := mkIndex (ix_Search index) SearchType (ix_MaxAge index)
                       (ix_Context index) in
  let searchTypeOptions := option_tag <$> searchTypeChoices (ix_SearchType index) in
  let value := FormValue req "maxAge" in
  match (if decide (0 < String.length value)%nat then
           match time_ParseDuration value with
           | inl err => None
           | inr maxAge =>
               if decide (maxAge < 0) then None
               else Some (mkIndex (ix_Search index) (ix_SearchType index)
                                  maxAge (ix_Context index))
           end
         else Some index) with
  | None =>
      inl (http_Error "?maxAge must be a non-negative duration"
                      StatusInternalServerError)
  | Some index =>
  let index :=
    if decide (o_MaxAge o > 0 ∧ o_MaxAge o < ix_MaxAge index)
    then mkIndex (ix_Search index) (ix_SearchType index) (o_MaxAge o)
                 (ix_Context index)
    else index in
  let maxAgeOptions := option_tag <$> maxAgeChoices (ix_MaxAge index) in
  inr {| pp_index := index;
         pp_contextOptions := contextOptions;
         pp_searchTypeOptions := searchTypeOptions;
         pp_maxAgeOptions := maxAgeOptions |}
  end end end end.

(** The switch of the two renderers on the pieces of a result name. *)
Definition classify (name : string) : res Header :=
  let parts := SplitN name Separator 8 in
  let last := Z.of_nat (length parts) - 1 in
  if decide (2 < last) then
    res_bind (index_at parts last) (λ plast,
    if decide (plast = "junit.failures" ∨ plast = "build-log.txt") then
      let filename :=
        if decide (plast = "junit.failures") then "junit" else plast in
      let prefix := String.concat "/" (take (Z.to_nat last) parts) in
      res_bind (if decide (3 < last)
                then res_bind (index_at parts 2) (λ p2, Ok (bool_decide (p2 = "pull")))
                else Ok false) (λ pull,
      res_bind (index_at parts (last - 2)) (λ job,
      res_bind (index_at parts (last - 1)) (λ build,
      let name := (job ++ " #" ++ build)%string in
      if pull : bool
      then res_bind (index_at parts 3) (λ pr, Ok (HPull filename pr prefix name))
      else Ok (HBuild filename prefix name))))
    else Ok (HPlain name))
  else Ok (HPlain name).

Definition build_link (prefix name : string) : string :=
  ("<a href=" ++ dq ++ "https://openshift-gce-devel.appspot.com/build/"
   ++ HTMLEscapeString prefix ++ "/" ++ dq ++ ">" ++ HTMLEscapeString name
   ++ "</a>")%string.

(** The heading of a result in [renderWithContext] ... *)
Definition context_heading (h : Header) : string :=
  match h with
  | HPull filename pr prefix name =>
      "<h5 class=" ++ dq ++ "mb-3" ++ dq ++ ">" ++ HTMLEscapeString filename
      ++ " from PR " ++ HTMLEscapeString pr ++ " " ++ build_link prefix name
      ++ "</h5><pre class=" ++ dq ++ "small" ++ dq ++ ">"
  | HBuild filename prefix name =>
      "<h5 class=" ++ dq ++ "mb-3" ++ dq ++ ">" ++ HTMLEscapeString filename
      ++ " from build " ++ build_link prefix name
      ++ "</h5><pre class=" ++ dq ++ "small" ++ dq ++ ">"
  | HPlain name =>
      "<h5 class=" ++ dq ++ "mb-3" ++ dq ++ ">" ++ HTMLEscapeString name
      ++ "</h5><pre class=" ++ dq ++ "small" ++ dq ++ ">"
  end%string.

(** ... and in [renderSummary]. *)
Definition summary_heading (h : Header) : string :=
  match h with
  | HPull filename pr prefix name =>
      "<span class=" ++ dq ++ "mb-3" ++ dq ++ ">" ++ HTMLEscapeString filename
      ++ " from PR " ++ HTMLEscapeString pr ++ " " ++ build_link prefix name
      ++ "</span>"
  | HBuild filename prefix name =>
      "<span class=" ++ dq ++ "mb-3" ++ dq ++ ">" ++ HTMLEscapeString filename
      ++ " from build " ++ build_link prefix name ++ "</span>"
  | HPlain name =>
      "<span class=" ++ dq ++ "mb-3" ++ dq ++ ">" ++ HTMLEscapeString name
      ++ "</span>"
  end%string.

(** The bytes of the statements of [renderWithContext] ... *)
Definition context_bytes (e : event) : string :=
  match e with
  | EFlush => ""
  | ESeparator => lf ++ "&mdash;" ++ lf ++ lf
  | EClose => "</pre></div>"
  | EOpen => "<div class=" ++ dq ++ "mb-4" ++ dq ++ ">"
  | EHeader s => s
  | ELine line => HTMLEscapeString line ++ lf
  | EMore n => lf ++ "... " ++ strconv_Itoa n ++ " lines not shown" ++ lf ++ lf
  | ECount n => ""
  end%string.

(** ... and of [renderSummary]. *)
Definition summary_bytes (e : event) : string :=
  match e with
  | EFlush => ""
  | EClose => "</div>"
  | EOpen => "<div class=" ++ dq ++ "mb-2" ++ dq ++ ">"
  | EHeader s => s
  | ECount n => " - <span>" ++ strconv_Itoa n ++ "</span>"
  | ESeparator | ELine _ | EMore _ => ""
  end%string.

(** The lines of one match that [renderWithContext] writes. *)
Definition match_lines (matches : list string) : list string :=
  cut_trailing_empty
    (filter (λ line, String.length line ≠ 0%nat) (TrimRight_space <$> matches)).

(** The function that [renderWithContext] gives to [executeGrep]. *)
Definition context_fn (st : renderState) (c : grepCall) : res renderState :=
  let out :=
    if decide (rs_count st = 5 ∨ Z.rem (rs_count st) 50 = 0)
    then rs_out st ++ [EFlush] else rs_out st in
  res_bind
    (if decide (rs_lastName st = gc_name c)
     then Ok (rs_count st, rs_lastName st, out ++ [ESeparator])
     else
       let out := if decide (rs_count st > 0) then out ++ [EClose] else out in
       res_bind (classify (gc_name c)) (λ h,
       Ok (int_wrap (rs_count st + 1), gc_name c,
           out ++ [EOpen; EHeader (context_heading h)])))
    (λ '(count, lastName, out),
     let lines := match_lines (gc_matches c) in
     Ok {| rs_count := count;
           rs_lineCount := int_wrap (rs_lineCount st + Z.of_nat (length lines));
           rs_lastName := lastName;
           rs_out := out ++ (ELine <$> lines) ++
                     (if decide (gc_moreLines c > 0)
                      then [EMore (gc_moreLines c)] else []) |}).

Fixpoint run_fn {S} (fn : S → grepCall → res S) (calls : list grepCall) (st : S)
  : res S :=
  match calls with
  | [] => Ok st
  | c :: rest => res_bind (fn st c) (run_fn fn rest)
  end.

(** [renderWithContext]: [executeGrep], which is defined elsewhere in the
    package, is taken by what it does with the function it is given: it
    invokes it on [calls], one after the other, and returns [err].  The
    result is the count, the error, and what was done to the writer;
    an error of the last flush is only logged. *)
Definition renderWithContext (calls : list grepCall) (err : option error)
  : res (Z * option error * list event) :=
  res_bind (run_fn context_fn calls (mkRenderState 0 0 "" [])) (λ st,
  let out := if decide (rs_count st > 0) then rs_out st ++ [EClose] else rs_out st in
  Ok (rs_count st, err, out ++ [EFlush])).

(** The function that [renderSummary] gives to [executeGrep]. *)
Definition summary_fn (st : summaryState) (c : grepCall) : res summaryState :=
  let out :=
    if decide (ss_count st = 5 ∨ Z.rem (ss_count st) 50 = 0)
    then ss_out st ++ [EFlush] else ss_out st in
  res_bind
    (if decide (ss_lastName st = gc_name c)
     then Ok (ss_count st, ss_currentLines st, ss_lastName st, out)
     else
       let '(out, currentLines) :=
         if decide (ss_count st > 0)
         then (out ++ [ECount (ss_currentLines st); EClose], 0)
         else (out, ss_currentLines st) in
       res_bind (classify (gc_name c)) (λ h,
       Ok (int_wrap (ss_count st + 1), currentLines, gc_name c,
           out ++ [EOpen; EHeader (summary_heading h)])))
    (λ '(count, currentLines, lastName, out),
     Ok {| ss_count := count;
           ss_currentLines := int_wrap (currentLines + 1);
           ss_lastName := lastName;
           ss_out := out |}).

(** [renderSummary]. *)
Definition renderSummary (calls : list grepCall) (err : option error)
  : res (Z * option error * list event) :=
  res_bind (run_fn summary_fn calls (mkSummaryState 0 0 "" [])) (λ st,
  let out :=
    if decide (ss_count st > 0)
    then ss_out st ++ [ECount (ss_currentLines st); EClose] else ss_out st in
  Ok (ss_count st, err, out ++ [EFlush])).

End SearchPage.

(** The numbers that a summary shows, and the events that open or close a
    result. *)
Definition shown_counts (out : list event) : list Z :=
  omap (λ e, match e with ECount n => Some n | _ => None end) out.

Definition is_bracket (e : event) : Prop := e = EOpen ∨ e = EClose.

Global Instance is_bracket_dec e : Decision (is_bracket e).
Proof. unfold is_bracket. apply _. Defined.

Definition headings (out : list event) : list string :=
  omap (λ e, match e with EHeader s => Some s | _ => None end) out.

Definition written_lines (out : list event) : list string :=
  omap (λ e, match e with ELine l => Some l | _ => None end) out.

Definition selected_choices (cs : list Choice) : list Choice :=
  filter (λ c, c.1.2 = "selected") cs.

(* ================================================================== *)
(** * Values for the search page                                       *)
(* ================================================================== *)

(** The number of separators in a name. *)
Fixpoint count_sep (sep : Ascii.ascii) (s : string) : nat :=
  match s with
  | EmptyString => 0
  | String c s' => (if decide (c = sep) then 1 else 0) + count_sep sep s'
  end.


(** A reading of decimal numbers, for [strconv.Atoi] and for the hours of
    [time.ParseDuration] on sample requests. *)
Fixpoint digits_value (s : string) (acc : Z) : option Z :=
  match s with
  | EmptyString => Some acc
  | String c s' =>
      let d := Z.of_nat (Ascii.nat_of_ascii c) - 48 in
      if decide (0 ≤ d ≤ 9) then digits_value s' (10 * acc + d) else None
  end.

Definition sample_Atoi (s : string) : error + Z :=
  match s with
  | EmptyString => inl (otherError "strconv.Atoi: invalid syntax")
  | String c s' =>
      let r := if decide (c = Ascii.ascii_of_nat 45)
               then Z.opp <$> (if decide (s' = EmptyString) then None
                               else digits_value s' 0)
               else digits_value s 0 in
      match r with
      | Some n => inr n
      | None => inl (otherError "strconv.Atoi: invalid syntax")
      end
  end.

(** Durations given in whole hours, as the page offers them. *)
Definition sample_ParseDuration (s : string) : error + Duration :=
  match split_first (Ascii.ascii_of_nat 104) s with
  | Some (String c num, EmptyString) =>
      match digits_value (String c num) 0 with
      | Some n => inr (n * Hour)
      | None => inl (otherError "time: invalid duration")
      end
  | _ => inl (otherError "time: invalid duration")
  end.

(** Text without markup is its own escape. *)
Definition sample_escape (s : string) : string := s.

(** A request for one line of context around junit failures of the last
    twelve hours. *)
Definition sample_request : Request :=
  {| req_ParseForm := None;
     req_Form := list_to_map [ ("search", ["timeout"]); ("context", ["1"]);
                               ("type", ["junit"]); ("maxAge", ["12h"]) ] |}.

(** Two matches in one junit file of a pull request job, and one in the
    log of a periodic job. *)
Definition sample_calls : list grepCall :=
  [ {| gc_name := "logs/origin/pull/123/e2e-aws/77/junit.failures";
       gc_matches := ["timeout waiting  "; ""; "  at step 3"; "   "];
       gc_moreLines := 0 |};
    {| gc_name := "logs/origin/pull/123/e2e-aws/77/junit.failures";
       gc_matches := ["timeout again"];
       gc_moreLines := 2 |};
    {| gc_name := "logs/periodic/e2e-gcp/9/build-log.txt";
       gc_matches := ["timeout"];
       gc_moreLines := 0 |} ].

(** The results that a renderer counts among the names it is called
    with, one after the other: a name opens a result when it differs from
    the name before it, and before the first name stands the empty one. *)
Fixpoint groups_from (lastName : string) (names : list string) : nat :=
  match names with
  | [] => 0
  | name :: rest =>
      (if decide (lastName = name) then 0 else 1) + groups_from name rest
  end.

(** [n] results, each opened and closed, and the closing that the last
    result of [count] still waits for. *)
Definition nested (n : nat) : list event := mjoin (replicate n [EOpen; EClose]).

Definition closing (count : Z) : list event :=
  if decide (count > 0) then [EClose] else [].

(* ================================================================== *)
(** * The mutex discipline of [stop]                                   *)
(* ================================================================== *)

Lemma moved_same f f' u next : moved f f' u next → f' u = next.
Proof. intros H. rewrite (H u). by rewrite decide_True. Qed.

Lemma moved_other f f' u next t : moved f f' u next → t ≠ u → f' t = f t.
Proof. intros H Hne. rewrite (H t). by rewrite decide_False. Qed.

Lemma LockInv_mutex w f t1 t2 p1 p2 :
  LockInv w f → f t1 = Some p1 → f t2 = Some p2 →
  holds_lock p1 = true → holds_lock p2 = true → t1 = t2.
Proof.
  intros HI H1 H2 Hh1 Hh2.
  pose proof (li_held _ _ HI _ _ H1 Hh1) as E1.
  pose proof (li_held _ _ HI _ _ H2 Hh2) as E2.
  congruence.
Qed.

(** A statement of [stop] never panics: [close(w.done)] is only reached
    with [w.done] open, and the unlock only with the lock held. *)
Lemma stop_no_panic σ f u p :
  LockInv (pw σ) f → f u = Some p → stop u p σ ≠ Panic.
Proof.
  intros HI Hu. pose proof (li_pc _ _ HI _ _ Hu) as Hp.
  destruct p; unfold stop, Mutex_Lock, Mutex_Unlock, chan_close; simpl in *.
  - by destruct (pw_lock (pw σ)).
  - by destruct (pw_closed (pw σ)).
  - destruct Hp as [-> _]. done.
  - done.
  - rewrite (li_held _ _ HI _ _ Hu eq_refl). done.
Qed.

(** A goroutine inside [stop] is blocked only at the lock, by its holder. *)
Lemma stop_blocked σ f u p :
  LockInv (pw σ) f → f u = Some p → stop u p σ = Blocked →
  p = SLock ∧ ∃ t, pw_lock (pw σ) = Some t.
Proof.
  intros HI Hu. pose proof (li_pc _ _ HI _ _ Hu) as Hp.
  destruct p; unfold stop, Mutex_Lock, Mutex_Unlock, chan_close; simpl in *.
  - destruct (pw_lock (pw σ)) eqn:E; [eauto | done].
  - by destruct (pw_closed (pw σ)).
  - destruct Hp as [-> _]. done.
  - done.
  - rewrite (li_held _ _ HI _ _ Hu eq_refl). done.
Qed.

Lemma stop_LockInv σ σ' f f' u p next :
  LockInv (pw σ) f → f u = Some p → stop u p σ = Ok (next, σ') →
  moved f f' u next → LockInv (pw σ') f'.
Proof.
  intros HI Hu Hs Hm.
  pose proof (li_pc _ _ HI _ _ Hu) as Hp.
  assert (Hother : ∀ t q, t ≠ u → f' t = Some q → f t = Some q).
  { intros t q Hne. by rewrite (moved_other _ _ _ _ _ Hm Hne). }
  assert (Hexcl : ∀ t q, holds_lock p = true → t ≠ u → f t = Some q → holds_lock q = false).
  { intros t q Hh Hne Ht. destruct (holds_lock q) eqn:E; [|done].
    destruct Hne. eapply LockInv_mutex; eauto. }
  destruct HI as [Hheld Hown Hpc Hcl Hpend Hbuf].
  destruct p; unfold stop, Mutex_Lock, Mutex_Unlock, chan_close in Hs; simpl in *.
  - (* Lock *)
    destruct (pw_lock (pw σ)) eqn:Elk; simplify_eq/=.
    split; simpl.
    + intros t p Ht Hh. destruct (decide (t = u)) as [->|Hne]; [done|].
      apply Hother in Ht; [|done]. by pose proof (Hheld _ _ Ht Hh).
    + intros t [= <-]. exists SCheck. by rewrite (moved_same _ _ _ _ Hm).
    + intros t p Ht. destruct (decide (t = u)) as [->|Hne].
      * rewrite (moved_same _ _ _ _ Hm) in Ht. by simplify_eq.
      * apply Hother in Ht; [|done]. apply Hpc in Ht. by destruct p.
    + done.
    + intros Hd Hc. destruct (Hpend Hd Hc) as [t Ht].
      by pose proof (Hheld _ _ Ht eq_refl).
    + done.
  - (* Check *)
    assert (Hlk := Hheld _ _ Hu eq_refl).
    assert (∃ q, next = Some q ∧ holds_lock q = true ∧ stop_pc_ok (pw σ) q ∧ σ' = σ
                 ∧ q ≠ SSetClosed) as (q & -> & Hq & Hqok & -> & Hqne).
    { destruct (pw_closed (pw σ)) eqn:Ec; simplify_eq/=.
      - exists SUnlock. done.
      - exists SCloseDone. repeat split; try done.
        destruct (chan_closed (pw_done (pw σ'))) eqn:Ed; [|done].
        destruct (Hpend eq_refl eq_refl) as [t Ht].
        assert (t = u) by (pose proof (Hheld _ _ Ht eq_refl); congruence).
        subst. congruence. }
    split; simpl.
    + intros t p Ht Hh. destruct (decide (t = u)) as [->|Hne]; [done|].
      apply Hother in Ht; [|done]. eauto.
    + intros t Ht. rewrite Hlk in Ht. simplify_eq. exists q.
      by rewrite (moved_same _ _ _ _ Hm).
    + intros t p Ht. destruct (decide (t = u)) as [->|Hne].
      * rewrite (moved_same _ _ _ _ Hm) in Ht. by simplify_eq.
      * apply Hother in Ht; [|done]. eauto.
    + done.
    + intros Hd Hc. destruct (Hpend Hd Hc) as [t Ht].
      assert (t = u) by (pose proof (Hheld _ _ Ht eq_refl); congruence).
      subst. congruence.
    + done.
  - (* close(done) *)
    assert (Hlk := Hheld _ _ Hu eq_refl).
    destruct Hp as [Hd Hc]. rewrite Hd in Hs. simplify_eq/=.
    split; simpl.
    + intros t p Ht Hh. destruct (decide (t = u)) as [->|Hne]; [done|].
      apply Hother in Ht; [|done]. eauto.
    + intros t Ht. rewrite Hlk in Ht. simplify_eq. exists SSetClosed.
      by rewrite (moved_same _ _ _ _ Hm).
    + intros t p Ht. destruct (decide (t = u)) as [->|Hne].
      * rewrite (moved_same _ _ _ _ Hm) in Ht. by simplify_eq.
      * apply Hother in Ht; [|done].
        pose proof (Hexcl _ _ eq_refl Hne Ht). by destruct p.
    + congruence.
    + intros _ _. exists u. by rewrite (moved_same _ _ _ _ Hm).
    + done.
  - (* closed = true *)
    assert (Hlk := Hheld _ _ Hu eq_refl).
    destruct Hp as [Hd Hc]. simplify_eq/=.
    split; simpl.
    + intros t p Ht Hh. destruct (decide (t = u)) as [->|Hne]; [done|].
      apply Hother in Ht; [|done]. eauto.
    + intros t Ht. rewrite Hlk in Ht. simplify_eq. exists SUnlock.
      by rewrite (moved_same _ _ _ _ Hm).
    + intros t p Ht. destruct (decide (t = u)) as [->|Hne].
      * rewrite (moved_same _ _ _ _ Hm) in Ht. by simplify_eq.
      * apply Hother in Ht; [|done].
        pose proof (Hexcl _ _ eq_refl Hne Ht). by destruct p.
    + done.
    + done.
    + done.
  - (* Unlock *)
    assert (Hlk := Hheld _ _ Hu eq_refl).
    rewrite Hlk in Hs. simplify_eq/=.
    split; simpl.
    + intros t p Ht Hh. destruct (decide (t = u)) as [->|Hne].
      * rewrite (moved_same _ _ _ _ Hm) in Ht. done.
      * apply Hother in Ht; [|done].
        pose proof (Hexcl _ _ eq_refl Hne Ht). congruence.
    + done.
    + intros t p Ht. destruct (decide (t = u)) as [->|Hne].
      * rewrite (moved_same _ _ _ _ Hm) in Ht. done.
      * apply Hother in Ht; [|done]. apply Hpc in Ht. by destruct p.
    + eauto.
    + intros Hd Hc. congruence.
    + done.
Qed.

Lemma LockInv_ext w f f' :
  LockInv w f → (∀ t, f' t = f t) → LockInv w f'.
Proof.
  intros [Hheld Hown Hpc Hcl Hpend Hbuf] He.
  split; try done.
  - intros t p. rewrite He. apply Hheld.
  - intros t Ht. rewrite He. by apply Hown.
  - intros t p. rewrite He. apply Hpc.
  - intros Hd Hc. destruct (Hpend Hd Hc) as [t Ht]. exists t. by rewrite He.
Qed.

(** A goroutine that enters [stop] stands before the lock. *)
Lemma LockInv_enter w f f' u :
  LockInv w f → f u = None → moved f f' u (Some SLock) → LockInv w f'.
Proof.
  intros [Hheld Hown Hpc Hcl Hpend Hbuf] Hu Hm.
  split; try done.
  - intros t p Ht Hh. destruct (decide (t = u)) as [->|Hne].
    + rewrite (moved_same _ _ _ _ Hm) in Ht. by simplify_eq.
    + rewrite (moved_other _ _ _ _ _ Hm Hne) in Ht. eauto.
  - intros t Ht. destruct (Hown _ Ht) as (p & Hp & Hh). exists p. split; [|done].
    rewrite (moved_other _ _ _ _ _ Hm); [done|]. congruence.
  - intros t p Ht. destruct (decide (t = u)) as [->|Hne].
    + rewrite (moved_same _ _ _ _ Hm) in Ht. by simplify_eq.
    + rewrite (moved_other _ _ _ _ _ Hm Hne) in Ht. eauto.
  - intros Hd Hc. destruct (Hpend Hd Hc) as [t Ht]. exists t.
    rewrite (moved_other _ _ _ _ _ Hm); [done|]. congruence.
Qed.

(** The shared object outside the lock discipline may change freely. *)
Lemma LockInv_frame w w' f f' :
  LockInv w f →
  pw_lock w' = pw_lock w → pw_done w' = pw_done w → pw_closed w' = pw_closed w →
  (∀ t, f' t = f t) → LockInv w' f'.
Proof.
  intros HI Hl Hd Hc He. apply (LockInv_ext w' f); [|done].
  destruct HI as [Hheld Hown Hpc Hcl Hpend Hbuf].
  split; rewrite ?Hl, ?Hd, ?Hc; try done.
  intros t p Ht. specialize (Hpc t p Ht).
  destruct p; simpl in *; by rewrite ?Hd, ?Hc.
Qed.

(* ================================================================== *)
(** * The session invariant is kept by every statement                 *)
(* ================================================================== *)

Lemma moved_run σ σ' :
  callers σ' = callers σ →
  moved (in_stop σ) (in_stop σ') TRun (run_pc_stop (run_at σ')).
Proof.
  intros Hc [|i]; simpl.
  - by destruct (run_at σ').
  - by rewrite Hc.
Qed.

Lemma moved_caller σ σ' i pc :
  run_at σ' = run_at σ → (i < length (callers σ))%nat →
  callers σ' = <[i := pc]> (callers σ) →
  moved (in_stop σ) (in_stop σ') (TCaller i) (Stop_pc_stop pc).
Proof.
  intros Hr Hi Hc [|j]; simpl.
  - by rewrite Hr.
  - rewrite Hc. destruct (decide (j = i)) as [->|Hne].
    + rewrite decide_True by done. rewrite list_lookup_insert_eq by done.
      by destruct pc.
    + rewrite decide_False by congruence.
      by rewrite list_lookup_insert_ne.
Qed.

Lemma moved_new_caller σ σ' pc :
  run_at σ' = run_at σ →
  callers σ' = callers σ ++ [pc] →
  moved (in_stop σ) (in_stop σ') (TCaller (length (callers σ))) (Stop_pc_stop pc).
Proof.
  intros Hr Hc [|j]; simpl.
  - by rewrite Hr.
  - rewrite Hc. destruct (decide (j = length (callers σ))) as [->|Hne].
    + rewrite decide_True by done.
      rewrite lookup_app_r by lia. rewrite Nat.sub_diag. simpl. by destruct pc.
    + rewrite decide_False by congruence.
      destruct (decide (j < length (callers σ))%nat).
      * by rewrite lookup_app_l.
      * rewrite !lookup_ge_None_2; [done|lia|rewrite length_app; simpl; lia].
Qed.

(** What a statement of [stop] leaves alone. *)
Lemma stop_frame u p σ next σ' :
  stop u p σ = Ok (next, σ') →
  ∃ lk dn cl dc,
    σ' = mkState (mkPW (pw_lw (pw σ)) (pw_ch (pw σ)) (pw_interval (pw σ))
                       (pw_rv (pw σ)) lk dn cl)
                 (now σ) (timer σ) (run_at σ) (callers σ) (woken_by σ)
                 (sent σ) (consumed σ) (discarded σ) (ch_closes σ) dc ∧
    (pw_closed (pw σ) = true → cl = true) ∧
    (chan_closed (pw_done (pw σ)) = true → chan_closed dn = true) ∧
    (done_closes σ = (if chan_closed (pw_done (pw σ)) then 1%nat else 0%nat) →
     dc = if chan_closed dn then 1%nat else 0%nat) ∧
    (next = None → p = SUnlock).
Proof.
  destruct σ as [[lw c iv rv lk dn cl] nw tm r cs wb se co di cc dc].
  unfold stop, Mutex_Lock, Mutex_Unlock, chan_close; simpl.
  destruct p; simpl.
  - destruct lk; intros; simplify_eq/=. eexists _, _, _, _. by repeat split.
  - destruct cl; intros; simplify_eq/=; eexists _, _, _, _; by repeat split.
  - destruct (chan_closed dn) eqn:E; intros; simplify_eq/=.
    eexists _, _, _, _. repeat split; try done. simpl. intros ->. done.
  - intros; simplify_eq/=. eexists _, _, _, _. by repeat split.
  - destruct lk; intros; simplify_eq/=. eexists _, _, _, _. by repeat split.
Qed.

(** Replace the state after a statement of [stop] by what [stop_frame]
    says it is. *)
Ltac stop_framed Hst :=
  destruct (stop_frame _ _ _ _ _ Hst) as (?&?&?&?& -> & _).

(** A statement of [stop] moves the goroutine forward. *)
Lemma stop_next u p σ next σ' :
  stop u p σ = Ok (next, σ') →
  match next with
  | Some q => (stop_weight q < stop_weight p)%nat
  | None => p = SUnlock
  end.
Proof.
  unfold stop, Mutex_Lock, Mutex_Unlock, chan_close.
  destruct p; simpl.
  - destruct (pw_lock _); intros; simplify_eq/=. lia.
  - destruct (pw_closed _); intros; simplify_eq/=; lia.
  - destruct (chan_closed _); intros; simplify_eq/=. lia.
  - intros; simplify_eq/=. lia.
  - destruct (pw_lock _); intros; by simplify_eq/=.
Qed.

Lemma sum_list_insert (f : Stop_pc → nat) l i x y :
  l !! i = Some x →
  (sum_list (f <$> <[i:=y]> l) + f x = sum_list (f <$> l) + f y)%nat.
Proof.
  revert i. induction l as [|z l IH]; intros [|i] Hi; simplify_eq/=; [lia|].
  specialize (IH _ Hi). lia.
Qed.

Section SessionProofs.

Variable Duration_String : Duration → string.

Local Abbreviation SessInv := (SessInv Duration_String).
Local Abbreviation expiredEvent := (expiredEvent Duration_String).
Local Abbreviation run := (run Duration_String).
Local Abbreviation step := (step Duration_String).
Local Abbreviation exec := (exec Duration_String).
Local Abbreviation reachable := (reachable Duration_String).
Local Abbreviation enabled := (enabled Duration_String).

Lemma SessInv_init lw interval rv :
  SessInv interval (newPeriodicWatcher lw interval rv).
Proof.
  split; simpl; try done.
  - split; simpl; try done; by intros [|i] p.
  - by intros [|].
Qed.

(** A statement of [stop], executed by the background goroutine or by a
    caller of [Stop], keeps the invariant once the goroutine has moved. *)
Lemma stop_SessInv interval σ u p next σ1 σ' :
  SessInv interval σ →
  in_stop σ u = Some p →
  stop u p σ = Ok (next, σ1) →
  pw σ' = pw σ1 → now σ' = now σ1 → timer σ' = timer σ1 →
  woken_by σ' = woken_by σ1 → sent σ' = sent σ1 → consumed σ' = consumed σ1 →
  discarded σ' = discarded σ1 → ch_closes σ' = ch_closes σ1 →
  done_closes σ' = done_closes σ1 →
  moved (in_stop σ) (in_stop σ') u next →
  length (callers σ') = length (callers σ) →
  (run_at σ' = run_at σ ∨
   (∃ q, run_at σ = RStop q) ∧
   run_at σ' = match next with Some p' => RStop p' | None => RDeferClose end) →
  (∀ i pc, callers σ' !! i = Some pc →
     callers σ !! i = Some pc ∨ pc = PStop SCheck ∨ pc = PStop SCloseDone
     ∨ pc = PStop SSetClosed ∨ pc = PStop SUnlock ∨ (pc = PDrain ∧ next = None)) →
  SessInv interval σ'.
Proof.
  intros HI Hu Hs Hpw Hnow Htm Hwb Hse Hco Hdi Hcc Hdc Hm Hlen Hrun Hcs.
  pose proof (stop_LockInv _ _ _ _ _ _ _ (si_lock _ _ _ HI) Hu Hs Hm) as HL.
  assert (Hby : callers σ ≠ [] ∨ woken_by σ = Some CaseTimer).
  { destruct u as [|i]; simpl in Hu.
    - right. pose proof (si_history _ _ _ HI) as Hh.
      destruct (run_at σ); simplify_eq. apply Hh.
    - left. intros Hnil. by rewrite Hnil in Hu. }
  assert (Hby' : callers σ' ≠ [] ∨ woken_by σ = Some CaseTimer).
  { destruct Hby as [Hne|?]; [left|by right].
    intros Hnil. rewrite Hnil in Hlen. by destruct (callers σ). }
  pose proof (li_pc _ _ (si_lock _ _ _ HI) _ _ Hu) as Hpc.
  destruct (stop_frame _ _ _ _ _ Hs) as (lk & dn & cl & dc & -> & Hcl & Hdn & Hdcs & Hnext).
  assert (Hclosed : next = None → cl = true).
  { intros Hn. rewrite (Hnext Hn) in Hpc. simpl in Hpc. auto. }
  destruct HI as [_ Hiv Hcap Hchc Hchs Hdcs' Hnw Htimer Hhist Htc Hdcase Hdby Hbuf Hcallers].
  destruct σ' as [w' nw' tm' r' cs' wb' se' co' di' cc' dc'].
  unfold ch, done_closed, timer_ready in *. simpl in *. subst.
  split; unfold ch, done_closed, timer_ready; simpl; try done.
  - rewrite Hchc. destruct Hrun as [->|[[q Hq] ->]]; [done|].
    rewrite Hq. rewrite !bool_decide_eq_false_2; [done| |done].
    by destruct next.
  - auto.
  - destruct (timer σ); [|destruct Hrun as [->|[[q Hq] ->]]; [done|congruence]].
    split; [|apply Htimer].
    destruct Hrun as [->|[[q Hq] ->]]; [apply Htimer|]. by destruct next.
  - destruct Hrun as [->|[[q Hq] ->]].
    + destruct (run_at σ); try done.
      all: destruct Hhist as [(?&?&?)|?]; [left|right]; auto.
    + rewrite Hq in Hhist. destruct next; [done|].
      left. destruct Hhist. auto.
  - auto.
  - intros i pc Hi. destruct (Hcs _ _ Hi) as [Ho|[->|[->|[->|[->|[-> Hn]]]]]]; try done.
    + apply Hcallers in Ho. destruct pc; simpl in *; intuition auto.
    + simpl. auto.
Qed.

Lemma run_SessInv interval σ σ' pick :
  SessInv interval σ → run pick σ = Ok σ' → SessInv interval σ'.
Proof.
  intros HI Hr. unfold run in Hr.
  destruct (run_at σ) eqn:Er.
  - (* time.After *)
    simplify_eq. destruct HI. rewrite Er in *.
    split; unfold ch, done_closed, timer_ready in *; simpl; try done.
    all: try by (destruct si_history0; congruence).
    eapply LockInv_frame; [done..|]. intros [|i]; simpl; by rewrite ?Er.
  - (* select *)
    assert (∃ c, (c = CaseTimer → timer_ready σ = true) ∧
                 (c = CaseDone → done_closed σ = true) ∧
      σ' = mkState (pw σ) (now σ) (timer σ)
             (match c with CaseTimer => RSend | CaseDone => RDeferClose end)
             (callers σ) (Some c) (sent σ) (consumed σ) (discarded σ)
             (ch_closes σ) (done_closes σ)) as (c & Hct & Hcd & ->).
    { unfold chan_ready, done_closed in *.
      rewrite (li_done_buf _ _ (si_lock _ _ _ HI)) in Hr.
      destruct (timer_ready σ), (chan_closed (pw_done (pw σ))); simplify_eq.
      - by exists pick; destruct pick.
      - by exists CaseTimer.
      - by exists CaseDone. }
    destruct HI. rewrite Er in *.
    split; unfold ch, done_closed, timer_ready in *; simpl; try done.
    + eapply LockInv_frame; [done..|]. intros [|i]; simpl; [|done].
      rewrite Er. by destruct c.
    + rewrite si_ch_closed0. by destruct c.
    + destruct (timer σ); [|done]. split; [by destruct c|apply si_timer0].
    + destruct si_history0. destruct c; auto.
    + intros [= ->]. auto.
    + intros [= ->]. auto.
    + intros _. destruct c; [by right|left].
      destruct si_done_by0 as [?|?]; [auto|done|].
      destruct si_history0. congruence.
  - (* send *)
    destruct HI. rewrite Er in *. unfold ch, done_closed, timer_ready in *.
    unfold chan_send in Hr. rewrite si_ch_closed0 in Hr. simpl in Hr.
    destruct si_history0 as [Hwb Hsent].
    assert (chan_buf (pw_ch (pw σ)) = [] ∧ consumed σ = [] ∧ discarded σ = [])
      as (Hb & Hco & Hdi).
    { rewrite Hsent in si_buf0. symmetry in si_buf0.
      apply app_eq_nil in si_buf0 as [? [? ?]%app_eq_nil]. done. }
    rewrite Hb, si_cap0 in Hr. simpl in Hr. simplify_eq.
    split; unfold ch, done_closed, timer_ready; simpl; try done.
    + eapply (LockInv_frame (pw σ)); [|done..|intros t; reflexivity].
      eapply LockInv_enter; [done| |].
      * instantiate (1 := TRun). simpl. by rewrite Er.
      * apply (moved_run σ (mkState _ _ _ (RStop SLock) _ _ _ _ _ _ _)). done.
    + by rewrite si_ch_closes0, si_ch_closed0.
    + destruct (timer σ); [|done]. split; [done|apply si_timer0].
    + by rewrite Hsent.
    + by rewrite Hco, Hdi, Hsent.
    + intros i pc Hi. specialize (si_callers0 _ _ Hi).
      destruct pc; simpl in *; [done..|].
      unfold ch in *. rewrite si_ch_closed0 in si_callers0.
      destruct si_callers0 as (?&?&?). done.
  - (* w.stop() *)
    destruct (stop TRun p σ) as [[next σ1]| |] eqn:Hs; simplify_eq/=.
    eapply (stop_SessInv _ _ TRun); [done| |done|done..| | | |].
    + simpl. by rewrite Er.
    + pose proof (moved_run σ (set_run match next with
                             | Some p' => RStop p'
                             | None => RDeferClose
                             end σ1)) as Hm.
      destruct (stop_frame _ _ _ _ _ Hs) as (lk & dn & cl & dc & -> & _).
      simpl in *. specialize (Hm eq_refl). by destruct next.
    + by destruct (stop_frame _ _ _ _ _ Hs) as (lk & dn & cl & dc & -> & _).
    + right. split; [eauto|done].
    + intros i pc Hi. left.
      destruct (stop_frame _ _ _ _ _ Hs) as (lk & dn & cl & dc & -> & _). done.
  - (* close(w.ch) *)
    destruct HI. rewrite Er in *. unfold ch, done_closed, timer_ready in *.
    unfold chan_close in Hr. rewrite si_ch_closed0 in Hr. simpl in Hr. simplify_eq.
    split; unfold ch, done_closed, timer_ready; simpl; try done.
    + eapply LockInv_frame; [done..|]. intros [|i]; simpl; by rewrite ?Er.
    + by rewrite si_ch_closes0, si_ch_closed0.
    + destruct (timer σ); [|done]. split; [done|apply si_timer0].
    + intros i pc Hi. specialize (si_callers0 _ _ Hi).
      destruct pc; simpl in *; [done..|].
      unfold ch in *. rewrite si_ch_closed0 in si_callers0.
      destruct si_callers0 as (?&?&?). done.
  - done.
Qed.

(** A receive on [w.ch] through which an event leaves the buffer: the
    buffer held that one event, and nothing was received before. *)
Lemma SessInv_buf_cons interval σ e rest :
  SessInv interval σ → chan_buf (ch σ) = e :: rest →
  rest = [] ∧ consumed σ = [] ∧ discarded σ = [] ∧ sent σ = [e] ∧
  e = expiredEvent interval.
Proof.
  intros HI Hb. pose proof (si_buf _ _ _ HI) as Hbuf. rewrite Hb in Hbuf.
  pose proof (si_history _ _ _ HI) as Hh.
  assert (sent σ = [] ∨ sent σ = [expiredEvent interval]) as [Hs|Hs].
  { destruct (run_at σ); intuition auto. }
  - rewrite Hs in Hbuf. destruct (consumed σ), (discarded σ); done.
  - rewrite Hs in Hbuf.
    destruct (consumed σ) as [|? [|]], (discarded σ) as [|? [|]], rest;
      simplify_eq/=; done.
Qed.

Lemma Stop_SessInv interval σ σ' i :
  SessInv interval σ → Stop i σ = Ok σ' → SessInv interval σ'.
Proof.
  intros HI Hr. unfold Stop in Hr.
  destruct (callers σ !! i) as [[p| |]|] eqn:Ei; [| | done..].
  - (* w.stop() *)
    destruct (stop (TCaller i) p σ) as [[next σ1]| |] eqn:Hs; simplify_eq/=.
    destruct (stop_frame _ _ _ _ _ Hs) as (lk & dn & cl & dc & Hσ1 & _).
    eapply (stop_SessInv _ _ (TCaller i)); [done| |done|done..| | | |].
    + simpl. by rewrite Ei.
    + pose proof (moved_caller σ
        (set_callers (<[i:=match next with Some p' => PStop p' | None => PDrain end]>
           (callers σ1)) σ1) i
        (match next with Some p' => PStop p' | None => PDrain end)) as Hm.
      rewrite Hσ1 in Hm. simpl in Hm. rewrite Hσ1. simpl.
      specialize (Hm eq_refl (lookup_lt_Some _ _ _ Ei) eq_refl).
      by destruct next.
    + rewrite Hσ1. simpl. by rewrite length_insert.
    + left. by rewrite Hσ1.
    + intros j pc. rewrite Hσ1. simpl.
      intros [(-> & <- & _)|[_ ?]]%list_lookup_insert_Some; [|by left].
      right. destruct next as [q|]; [|by repeat right].
      pose proof Hs as Hs'. unfold stop in Hs'.
      destruct p; simpl in Hs'.
      * destruct (Mutex_Lock _ _); simplify_eq/=. auto.
      * destruct (pw_closed _); simplify_eq/=; auto.
      * destruct (chan_close _); simplify_eq/=; auto.
      * simplify_eq/=; auto.
      * destruct (Mutex_Unlock _); simplify_eq/=.
  - (* for range w.ch *)
    unfold chan_recv in Hr.
    destruct (chan_buf (pw_ch (pw σ))) as [|e rest] eqn:Eb.
    + destruct (chan_closed (pw_ch (pw σ))) eqn:Ec; simplify_eq/=.
      pose proof (si_callers _ _ _ HI _ _ Ei) as Hok. simpl in Hok.
      destruct HI.
      split; unfold ch, done_closed, timer_ready in *; simpl; try done.
      * eapply LockInv_frame; [done..|]. intros [|j]; simpl; [done|].
        destruct (decide (j = i)) as [->|Hne].
        -- rewrite list_lookup_insert_eq by (by eapply (lookup_lt_Some _ _ PDrain)).
           by rewrite Ei.
        -- by rewrite list_lookup_insert_ne.
      * intros _. left. intros Hnil. apply (f_equal length) in Hnil.
        rewrite length_insert in Hnil. apply lookup_lt_Some in Ei.
        simpl in Hnil. lia.
      * intros j pc [(-> & <- & _)|[_ ?]]%list_lookup_insert_Some.
        -- simpl. unfold ch. simpl. done.
        -- by eapply si_callers0.
    + simplify_eq/=.
      destruct (SessInv_buf_cons _ _ _ _ HI Eb) as (-> & Hco & Hdi & Hse & ->).
      destruct HI.
      split; unfold ch, done_closed, timer_ready in *; simpl; try done.
      * by eapply LockInv_frame.
      * by rewrite Hse, Hco, Hdi.
      * intros j pc Hj. specialize (si_callers0 _ _ Hj).
        destruct pc; simpl in *; [done..|].
        unfold ch in *. rewrite Eb in si_callers0.
        destruct si_callers0 as (?&?&?). done.
Qed.

Lemma receive_SessInv interval σ σ' :
  SessInv interval σ → receive σ = Ok σ' → SessInv interval σ'.
Proof.
  intros HI Hr. unfold receive, ResultChan, chan_recv in Hr.
  destruct (chan_buf (pw_ch (pw σ))) as [|e rest] eqn:Eb.
  - destruct (chan_closed (pw_ch (pw σ))); by simplify_eq/=.
  - simplify_eq/=.
    destruct (SessInv_buf_cons _ _ _ _ HI Eb) as (-> & Hco & Hdi & Hse & ->).
    destruct HI.
    split; unfold ch, done_closed, timer_ready in *; simpl; try done.
    + by eapply LockInv_frame.
    + by rewrite Hse, Hco, Hdi.
    + intros j pc Hj. specialize (si_callers0 _ _ Hj).
      destruct pc; simpl in *; [done..|].
      unfold ch in *. rewrite Eb in si_callers0.
      destruct si_callers0 as (?&?&?). done.
Qed.

(** Every move of the scheduler keeps the invariant. *)
Lemma step_SessInv interval a σ σ' :
  SessInv interval σ → step a σ = Ok σ' → SessInv interval σ'.
Proof.
  intros HI Hs. destruct a as [dt|pick| |i|]; simpl in Hs.
  - (* time passes *)
    destruct (decide (0 ≤ dt)); simplify_eq.
    destruct HI.
    split; unfold ch, done_closed, timer_ready in *; simpl; try done.
    + lia.
    + destruct (timer σ); [|done]. split; [apply si_timer0|lia].
    + intros Hw. specialize (si_timer_case0 Hw).
      destruct (timer σ); [|done].
      rewrite bool_decide_eq_true in *. lia.
  - by eapply run_SessInv.
  - (* a new call of Stop *)
    simplify_eq. destruct HI.
    split; unfold ch, done_closed, timer_ready in *; simpl; try done.
    + eapply LockInv_enter; [done| |].
      * instantiate (1 := TCaller (length (callers σ))). simpl.
        by rewrite lookup_ge_None_2.
      * by apply (moved_new_caller σ (set_callers _ σ) (PStop SLock)).
    + intros _. left. by destruct (callers σ).
    + intros j pc [?|[_ Hj]]%lookup_app_Some; [by eapply si_callers0|].
      apply list_lookup_singleton_Some in Hj as [_ <-]. done.
  - by eapply Stop_SessInv.
  - by eapply receive_SessInv.
Qed.

Lemma exec_app sched1 sched2 σ :
  exec (sched1 ++ sched2) σ = res_bind (exec sched1 σ) (exec sched2).
Proof.
  revert σ. induction sched1 as [|a sched1 IH]; intros σ; simpl; [done|].
  destruct (step a σ); simpl; auto.
Qed.

Lemma exec_SessInv interval sched σ σ' :
  SessInv interval σ → exec sched σ = Ok σ' → SessInv interval σ'.
Proof.
  revert σ. induction sched as [|a sched IH]; intros σ HI He; simpl in He.
  - by simplify_eq.
  - destruct (step a σ) as [σ1| |] eqn:Hs; [|done..].
    eapply IH; [|done]. by eapply step_SessInv.
Qed.

Lemma reachable_SessInv lw interval rv σ :
  reachable lw interval rv σ → SessInv interval σ.
Proof. intros [sched He]. eapply exec_SessInv; [apply SessInv_init|done]. Qed.

(** From a run [He] of a schedule on a fresh session, the invariant [HI]
    of the state it leads to. *)
Ltac reached He HI :=
  match type of He with
  | _ = Ok ?σ =>
      assert (HI : SessInv _ σ) by (eapply reachable_SessInv; eexists; exact He)
  end.

(** No statement panics in a state that satisfies the invariant. *)
Lemma step_no_panic interval a σ :
  SessInv interval σ → step a σ ≠ Panic.
Proof.
  intros HI. destruct a as [dt|pick| |i|]; simpl.
  - by destruct (decide (0 ≤ dt)).
  - unfold run. pose proof (si_ch_closed _ _ _ HI) as Hc. unfold ch in Hc.
    destruct (run_at σ) eqn:Er; try done.
    + by destruct (timer_ready σ), (chan_ready (pw_done (pw σ))).
    + unfold chan_send. rewrite Hc. simpl.
      by destruct (decide _).
    + pose proof (stop_no_panic σ _ TRun p (si_lock _ _ _ HI)) as Hn.
      simpl in Hn. rewrite Er in Hn. specialize (Hn eq_refl).
      by destruct (stop TRun p σ) as [[??]| |].
    + unfold chan_close. by rewrite Hc.
  - done.
  - unfold Stop. destruct (callers σ !! i) as [[p| |]|] eqn:Ei; try done.
    + pose proof (stop_no_panic σ _ (TCaller i) p (si_lock _ _ _ HI)) as Hn.
      simpl in Hn. rewrite Ei in Hn. specialize (Hn eq_refl).
      by destruct (stop (TCaller i) p σ) as [[??]| |].
    + unfold chan_recv. destruct (chan_buf _); [|done].
      by destruct (chan_closed _).
  - unfold receive, chan_recv. destruct (chan_buf _); [|done].
    by destruct (chan_closed _).
Qed.

Lemma exec_no_panic interval sched σ :
  SessInv interval σ → exec sched σ ≠ Panic.
Proof.
  revert σ. induction sched as [|a sched IH]; intros σ HI; simpl; [done|].
  destruct (step a σ) as [σ1| |] eqn:Hs; simpl; [|done|].
  - eapply IH. by eapply step_SessInv.
  - by eapply step_no_panic in Hs.
Qed.

(** A goroutine inside [stop] whose statement completes can be scheduled. *)
Lemma stop_enabled σ u p next σ1 :
  in_stop σ u = Some p → stop u p σ = Ok (next, σ1) → enabled (action_of u) σ.
Proof.
  intros Hu Hs. destruct u as [|i]; simpl in *.
  - destruct (run_at σ) eqn:Er; simplify_eq.
    unfold enabled. simpl. unfold run. rewrite Er, Hs. simpl. eauto.
  - destruct (callers σ !! i) as [[q| |]|] eqn:Ei; simplify_eq.
    unfold enabled. simpl. unfold Stop. rewrite Ei, Hs. simpl. eauto.
Qed.

(** Whenever a goroutine is inside [stop], some goroutine can be
    scheduled: itself, or the holder of the lock it waits for. *)
Lemma lock_progress interval σ u p :
  SessInv interval σ → in_stop σ u = Some p →
  ∃ t, enabled (action_of t) σ.
Proof.
  intros HI Hu. pose proof (si_lock _ _ _ HI) as HL.
  destruct (stop u p σ) as [[next σ1]| |] eqn:Hs.
  - exists u. by eapply stop_enabled.
  - destruct (stop_blocked _ _ _ _ HL Hu Hs) as [-> [t Ht]].
    destruct (li_owner _ _ HL _ Ht) as (q & Hq & Hh).
    exists t. destruct (stop t q σ) as [[next σ1]| |] eqn:Hs'.
    + by eapply stop_enabled.
    + destruct (stop_blocked _ _ _ _ HL Hq Hs') as [-> _]. done.
    + by eapply stop_no_panic in Hs'.
  - by eapply stop_no_panic in Hs.
Qed.

Lemma action_of_goroutine t : is_goroutine_step (action_of t) = true.
Proof. by destruct t. Qed.

(** Progress: unless every goroutine is through, one of them can execute
    a statement, or the only goroutine is the background task waiting in
    its select for the timer. *)
Lemma progress interval σ :
  SessInv interval σ → ¬ finished σ →
  (∃ t, enabled (action_of t) σ) ∨
  (run_at σ = RSelect ∧ callers σ = [] ∧ done_closed σ = false ∧
   ∃ t0, timer σ = Some t0 ∧ now σ < t0 + interval).
Proof.
  intros HI Hnf.
  pose proof (si_ch_closed _ _ _ HI) as Hc. unfold ch in Hc.
  assert (Hcaller : ∀ i pc, callers σ !! i = Some pc → pc ≠ PReturned →
            (pc = PDrain → chan_ready (pw_ch (pw σ)) = true) →
            ∃ t, enabled (action_of t) σ).
  { intros i pc Hi Hne Hdr. destruct pc as [p| |]; [| |done].
    - eapply (lock_progress _ _ (TCaller i)); [done|]. simpl. by rewrite Hi.
    - exists (TCaller i). unfold enabled. simpl. unfold Stop, chan_recv.
      rewrite Hi. specialize (Hdr eq_refl). unfold chan_ready in Hdr.
      destruct (chan_buf (pw_ch (pw σ))); [rewrite Hdr|]; simpl; eauto. }
  destruct (run_at σ) eqn:Er.
  - left. exists TRun. unfold enabled. simpl. unfold run. rewrite Er. eauto.
  - destruct (timer_ready σ) eqn:Etr; [|destruct (done_closed σ) eqn:Ed].
    + left. exists TRun. unfold enabled. simpl. unfold run. rewrite Er, Etr.
      destruct (chan_ready (pw_done (pw σ))); eauto.
    + left. exists TRun. unfold enabled. simpl. unfold run, chan_ready.
      rewrite Er, Etr. rewrite (li_done_buf _ _ (si_lock _ _ _ HI)).
      unfold done_closed in Ed. rewrite Ed. eauto.
    + destruct (callers σ) as [|pc cs] eqn:Ecs.
      * right. repeat split; try done.
        pose proof (si_timer _ _ _ HI) as Ht. pose proof (si_interval _ _ _ HI) as Hi.
        unfold timer_ready in Etr.
        destruct (timer σ) as [t0|]; [|congruence].
        exists t0. split; [done|]. apply bool_decide_eq_false in Etr. lia.
      * left. pose proof (si_callers _ _ _ HI 0%nat pc) as Hok.
        rewrite Ecs in Hok. specialize (Hok eq_refl).
        rewrite <-Ecs in Hcaller.
        assert (pw_closed (pw σ) = true → False).
        { intros Hcl. apply (li_closed _ _ (si_lock _ _ _ HI)) in Hcl.
          unfold done_closed in Ed. congruence. }
        apply (Hcaller 0%nat pc); [by rewrite Ecs| |];
          destruct pc; simpl in *; try done; intuition.
  - left. exists TRun. unfold enabled. simpl. unfold run, chan_send.
    rewrite Er, Hc. simpl.
    pose proof (si_history _ _ _ HI) as Hh. rewrite Er in Hh. destruct Hh as [_ Hs].
    pose proof (si_buf _ _ _ HI) as Hb. rewrite Hs in Hb. symmetry in Hb.
    apply app_eq_nil in Hb as [_ [_ Hb]%app_eq_nil]. unfold ch in Hb.
    pose proof (si_cap _ _ _ HI) as Hcap. unfold ch in Hcap.
    rewrite Hb, Hcap. simpl. eauto.
  - left. eapply (lock_progress _ _ TRun); [done|]. simpl. by rewrite Er.
  - left. exists TRun. unfold enabled. simpl. unfold run, chan_close.
    rewrite Er, Hc. simpl. eauto.
  - left. destruct (decide (Forall (λ pc, pc = PReturned) (callers σ))) as [Hall|Hex].
    + destruct Hnf. split; [by rewrite Er|done].
    + apply not_Forall_Exists in Hex; [|solve_decision].
      apply Exists_exists in Hex as (pc & [i Hi]%list_elem_of_lookup & Hne).
      apply (Hcaller i pc); [done..|].
      intros _. unfold chan_ready. rewrite Hc. simpl. by destruct (chan_buf _).
Qed.

(** Every statement of a goroutine lowers the weight of the session; a
    new call of [Stop] raises it by the weight of one call; receives and
    the clock do not raise it. *)
Lemma step_weight a σ σ' :
  step a σ = Ok σ' →
  (weight σ' + (if is_goroutine_step a then 1 else 0)
   ≤ weight σ + (if is_Stop_call a then 6 else 0))%nat.
Proof.
  intros Hs. unfold weight, ch. destruct a as [dt|pick| |i|]; simpl in Hs |- *.
  - destruct (decide (0 ≤ dt)); simplify_eq/=. lia.
  - unfold run in Hs. destruct (run_at σ) eqn:Er; simpl.
    + simplify_eq/=. lia.
    + destruct (timer_ready σ), (chan_ready (pw_done (pw σ))); simplify_eq/=;
        try destruct pick; simpl; lia.
    + unfold chan_send in Hs. destruct (chan_closed _); [done|].
      destruct (decide _); simplify_eq/=. rewrite length_app. simpl. lia.
    + destruct (stop TRun p σ) as [[next σ1]| |] eqn:Hst; simplify_eq/=.
      pose proof (stop_next _ _ _ _ _ Hst) as Hn.
      stop_framed Hst. simpl.
      destruct next; simpl; [lia|]. subst. simpl. lia.
    + unfold chan_close in Hs. destruct (chan_closed _); simplify_eq/=. lia.
    + done.
  - simplify_eq/=. rewrite fmap_app, sum_list_with_app. simpl. lia.
  - unfold Stop in Hs. destruct (callers σ !! i) as [[p| |]|] eqn:Ei; [| |done..].
    + destruct (stop (TCaller i) p σ) as [[next σ1]| |] eqn:Hst; simplify_eq/=.
      pose proof (stop_next _ _ _ _ _ Hst) as Hn.
      stop_framed Hst. simpl.
      pose proof (sum_list_insert Stop_weight _ _ _
        (match next with Some p' => PStop p' | None => PDrain end) Ei) as Hsum.
      destruct next; simpl in *; [lia|]. subst. simpl in *. lia.
    + unfold chan_recv in Hs. destruct (chan_buf (pw_ch (pw σ))) eqn:Eb.
      * destruct (chan_closed _); simplify_eq/=.
        pose proof (sum_list_insert Stop_weight _ _ _ PReturned Ei) as Hsum.
        simpl in *. rewrite Eb. simpl. lia.
      * simplify_eq/=. lia.
  - unfold receive, ResultChan, chan_recv in Hs.
    destruct (chan_buf (pw_ch (pw σ))) eqn:Eb.
    + destruct (chan_closed _); simplify_eq/=. rewrite Eb. simpl. lia.
    + simplify_eq/=. lia.
Qed.

Lemma exec_weight sched σ σ' :
  exec sched σ = Ok σ' →
  (weight σ' + goroutine_steps sched ≤ weight σ + 6 * Stop_calls sched)%nat.
Proof.
  revert σ. induction sched as [|a sched IH]; intros σ He; simpl in He.
  - simplify_eq. unfold goroutine_steps, Stop_calls. simpl. lia.
  - destruct (step a σ) as [σ1| |] eqn:Hs; [|done..]. simpl in He.
    specialize (IH _ He). pose proof (step_weight _ _ _ Hs) as Hw.
    unfold goroutine_steps, Stop_calls in *. rewrite !filter_cons.
    destruct a; simpl in *; repeat case_decide; simpl; try done; lia.
Qed.

Lemma exec_callers_length sched σ σ' :
  exec sched σ = Ok σ' →
  length (callers σ') = (length (callers σ) + Stop_calls sched)%nat.
Proof.
  revert σ. induction sched as [|a sched IH]; intros σ He; simpl in He.
  - simplify_eq. unfold Stop_calls. simpl. lia.
  - destruct (step a σ) as [σ1| |] eqn:Hs; [|done..]. simpl in He.
    rewrite (IH _ He). unfold Stop_calls. rewrite filter_cons.
    assert (length (callers σ1) =
            (length (callers σ) + if is_Stop_call a then 1 else 0)%nat) as ->.
    { destruct a as [dt|pick| |i|]; simpl in Hs |- *.
      - destruct (decide (0 ≤ dt)); simplify_eq/=. lia.
      - unfold run in Hs. destruct (run_at σ); simplify_eq/=; try lia.
        + destruct (timer_ready σ), (chan_ready (pw_done (pw σ)));
            simplify_eq/=; lia.
        + destruct (chan_send _ _); simplify_eq/=; lia.
        + destruct (stop TRun p σ) as [[next σ2]| |] eqn:Hst; simplify_eq/=.
          stop_framed Hst. simpl. lia.
        + destruct (chan_close _); simplify_eq/=; lia.
      - simplify_eq/=. rewrite length_app. simpl. lia.
      - unfold Stop in Hs. destruct (callers σ !! i) as [[p| |]|]; [| |done..].
        + destruct (stop (TCaller i) p σ) as [[next σ2]| |] eqn:Hst; simplify_eq/=.
          stop_framed Hst. simpl.
          rewrite length_insert. lia.
        + destruct (chan_recv _) as [[[e|] c]| |]; simplify_eq/=;
            rewrite ?length_insert; lia.
      - unfold receive in Hs.
        destruct (chan_recv _) as [[[e|] c]| |]; simplify_eq/=; lia. }
    destruct a; simpl; repeat case_decide; simpl; try done; lia.
Qed.

(** Whether the background goroutine can be scheduled does not depend on
    the choice offered to its select. *)
Lemma enabled_run_pick pick pick' σ :
  enabled (ARun pick) σ → enabled (ARun pick') σ.
Proof.
  unfold enabled. simpl. unfold run. intros [σ' Hs].
  destruct (run_at σ); eauto.
  destruct (timer_ready σ), (chan_ready (pw_done (pw σ))); eauto.
Qed.

(** The send of [run] is never held up: the buffer is empty when the
    goroutine gets there. *)
Lemma send_enabled interval σ pick :
  SessInv interval σ → run_at σ = RSend → enabled (ARun pick) σ.
Proof.
  intros HI Er. unfold enabled. simpl. unfold run, chan_send.
  pose proof (si_ch_closed _ _ _ HI) as Hc. unfold ch in Hc.
  rewrite Er in Hc. rewrite Er, Hc. simpl.
  pose proof (si_history _ _ _ HI) as Hh. rewrite Er in Hh. destruct Hh as [_ Hs].
  pose proof (si_buf _ _ _ HI) as Hb. rewrite Hs in Hb. symmetry in Hb.
  apply app_eq_nil in Hb as [_ [_ Hb]%app_eq_nil]. unfold ch in Hb.
  pose proof (si_cap _ _ _ HI) as Hcap. unfold ch in Hcap.
  rewrite Hb, Hcap. simpl. eauto.
Qed.

Lemma close_enabled interval σ pick :
  SessInv interval σ → run_at σ = RDeferClose → enabled (ARun pick) σ.
Proof.
  intros HI Er. unfold enabled. simpl. unfold run, chan_close.
  pose proof (si_ch_closed _ _ _ HI) as Hc. unfold ch in Hc.
  rewrite Er in Hc. rewrite Er, Hc. simpl. eauto.
Qed.

(** At most one event is ever sent, and at most one is buffered. *)
Lemma SessInv_sent interval σ :
  SessInv interval σ → sent σ = [] ∨ sent σ = [expiredEvent interval].
Proof.
  intros HI. pose proof (si_history _ _ _ HI) as Hh.
  destruct (run_at σ); intuition auto.
Qed.

Lemma SessInv_buf_length interval σ :
  SessInv interval σ → (length (chan_buf (ch σ)) ≤ length (sent σ) ≤ 1)%nat.
Proof.
  intros HI. pose proof (si_buf _ _ _ HI) as Hb.
  destruct (SessInv_sent _ _ HI) as [Hs|Hs]; rewrite Hs in *; simpl.
  - symmetry in Hb. apply app_eq_nil in Hb as [_ [_ ->]%app_eq_nil]. simpl. lia.
  - apply (f_equal length) in Hb. rewrite !length_app in Hb. simpl in Hb. lia.
Qed.

(** Once the background goroutine is past its select, [w.done] is closed. *)
Lemma SessInv_done_at_exit interval σ :
  SessInv interval σ → run_at σ = RDeferClose ∨ run_at σ = RExited →
  done_closed σ = true.
Proof.
  intros HI Hr. pose proof (si_history _ _ _ HI) as Hh.
  assert ((woken_by σ = Some CaseTimer ∧
           sent σ = [expiredEvent interval] ∧ pw_closed (pw σ) = true) ∨
          (woken_by σ = Some CaseDone ∧ sent σ = [])) as [(_ & _ & Hc)|[Hw _]].
  { by destruct Hr as [Hr|Hr]; rewrite Hr in Hh. }
  - by apply (li_closed _ _ (si_lock _ _ _ HI)).
  - by apply (si_done_case _ _ _ HI).
Qed.


(** Without a call of [Stop], the select cannot have taken [w.done]. *)
Lemma no_Stop_timer_case interval σ :
  SessInv interval σ → callers σ = [] → woken_by σ ≠ Some CaseDone.
Proof.
  intros HI Hnil Hw.
  destruct (si_done_by _ _ _ HI) as [?|?]; [by right|done|congruence].
Qed.

Lemma no_Stop_exit interval σ :
  SessInv interval σ → callers σ = [] → run_at σ = RExited →
  sent σ = [expiredEvent interval].
Proof.
  intros HI Hnil Hr. pose proof (si_history _ _ _ HI) as Hh. rewrite Hr in Hh.
  destruct Hh as [(_ & ? & _)|[Hw _]]; [done|].
  by eapply no_Stop_timer_case in Hw.
Qed.

(** Without a call of [Stop], the background goroutine can always execute
    its next statement, unless it waits in its select for the timer. *)
Lemma no_Stop_progress interval σ :
  SessInv interval σ → callers σ = [] → run_at σ ≠ RExited →
  (∀ pick, enabled (ARun pick) σ) ∨
  (run_at σ = RSelect ∧ ∃ t0, timer σ = Some t0 ∧ now σ < t0 + interval).
Proof.
  intros HI Hnil Hr.
  destruct (progress _ _ HI) as [[t Ht]|(? & _ & _ & ?)]; [| |by right].
  - intros [? _]. done.
  - left. intros pick. destruct t as [|i].
    + by eapply enabled_run_pick.
    + destruct Ht as [σ' Hs]. simpl in Hs. unfold Stop in Hs.
      by rewrite Hnil in Hs.
Qed.

(** Without a call of [Stop] and without a receive, nothing leaves the
    buffer. *)
Lemma exec_unread sched σ σ' :
  exec sched σ = Ok σ' → callers σ = [] → Stop_calls sched = 0%nat →
  Forall (λ a, is_receive a = false) sched →
  consumed σ' = consumed σ ∧ discarded σ' = discarded σ.
Proof.
  revert σ. induction sched as [|a sched IH]; intros σ He Hnil Hsc Hnr; simpl in He.
  - by simplify_eq.
  - destruct (step a σ) as [σ1| |] eqn:Hs; [|done..]. simpl in He.
    apply Forall_cons in Hnr as [Ha Hnr].
    unfold Stop_calls in Hsc. rewrite filter_cons in Hsc.
    assert (callers σ1 = [] ∧ consumed σ1 = consumed σ ∧ discarded σ1 = discarded σ
            ∧ Stop_calls sched = 0%nat) as (Hnil1 & <- & <- & Hsc1).
    { destruct a as [dt|pick| |i|]; simpl in Hs, Ha, Hsc; try done.
      - destruct (decide (0 ≤ dt)); by simplify_eq/=.
      - unfold run in Hs. destruct (run_at σ); simplify_eq/=; try done.
        + by destruct (timer_ready σ), (chan_ready (pw_done (pw σ))); simplify_eq/=.
        + by destruct (chan_send _ _); simplify_eq/=.
        + destruct (stop TRun p σ) as [[next σ2]| |] eqn:Hst; simplify_eq/=.
          by stop_framed Hst.
        + by destruct (chan_close _); simplify_eq/=.
      - unfold Stop in Hs. by rewrite Hnil in Hs. }
    by apply IH.
Qed.


(** Once a call of [Stop] has returned, no statement sends or receives an
    event any more. *)
Lemma step_after_return interval a σ σ' i :
  SessInv interval σ → callers σ !! i = Some PReturned → step a σ = Ok σ' →
  callers σ' !! i = Some PReturned ∧ sent σ' = sent σ ∧
  consumed σ' = consumed σ ∧ discarded σ' = discarded σ.
Proof.
  intros HI Hi Hs.
  pose proof (si_callers _ _ _ HI _ _ Hi) as (_ & Hc & Hb). unfold ch in *.
  assert (Hr : run_at σ = RExited).
  { pose proof (si_ch_closed _ _ _ HI) as Hcc. unfold ch in Hcc.
    rewrite Hcc in Hc. by apply bool_decide_eq_true in Hc. }
  destruct a as [dt|pick| |j|]; simpl in Hs.
  - destruct (decide (0 ≤ dt)); by simplify_eq/=.
  - unfold run in Hs. by rewrite Hr in Hs.
  - simplify_eq/=. split_and!; try done. by apply lookup_app_l_Some.
  - unfold Stop in Hs. destruct (callers σ !! j) as [[p| |]|] eqn:Ej; [| |done..].
    + destruct (stop (TCaller j) p σ) as [[next σ1]| |] eqn:Hst; simplify_eq/=.
      stop_framed Hst. simpl.
      split_and!; try done.
      rewrite list_lookup_insert_ne; [done|]. intros ->. congruence.
    + unfold chan_recv in Hs. rewrite Hb, Hc in Hs. simplify_eq/=.
      split_and!; try done.
      rewrite list_lookup_insert_ne; [done|]. intros ->. congruence.
  - unfold receive, ResultChan, chan_recv in Hs. rewrite Hb, Hc in Hs.
    by simplify_eq/=.
Qed.

Lemma exec_after_return interval sched σ σ' i :
  SessInv interval σ → callers σ !! i = Some PReturned → exec sched σ = Ok σ' →
  callers σ' !! i = Some PReturned ∧ sent σ' = sent σ ∧
  consumed σ' = consumed σ ∧ discarded σ' = discarded σ.
Proof.
  revert σ. induction sched as [|a sched IH]; intros σ HI Hi He; simpl in He.
  - by simplify_eq.
  - destruct (step a σ) as [σ1| |] eqn:Hs; [|done..]. simpl in He.
    destruct (step_after_return _ _ _ _ _ HI Hi Hs) as (Hi1 & <- & <- & <-).
    eapply IH; [|done..]. by eapply step_SessInv.
Qed.

Lemma finished_dec σ : Decision (finished σ).
Proof. unfold finished. apply _. Qed.

(** Unless all goroutines are through, a goroutine can execute one more
    statement, after the timer has fired if that is all there is to wait
    for. *)
Lemma one_more_statement interval σ :
  SessInv interval σ → ¬ finished σ →
  ∃ sched1 σ1, exec sched1 σ = Ok σ1 ∧ (weight σ1 < weight σ)%nat ∧
    Stop_calls sched1 = 0%nat ∧ Forall (λ a, is_receive a = false) sched1.
Proof.
  intros HI Hnf.
  destruct (progress _ _ HI Hnf) as [[t [σ1 Hs]]|(Hr & Hnil & Hd & t0 & Ht0 & Hlt)].
  - exists [action_of t], σ1. simpl. rewrite Hs.
    pose proof (step_weight _ _ _ Hs) as Hw. rewrite action_of_goroutine in Hw.
    split_and!; [done| |by destruct t|by destruct t; repeat constructor].
    destruct t; simpl in Hw; lia.
  - pose (dt := t0 + interval - now σ).
    destruct (step (ATick dt) σ) as [σt| |] eqn:Hst;
      [|by simpl in Hst; rewrite decide_True in Hst by (unfold dt; lia)..].
    pose proof (step_SessInv _ _ _ _ HI Hst) as HIt.
    pose proof (step_weight _ _ _ Hst) as Hwt. simpl in Hwt.
    assert (callers σt = [] ∧ run_at σt = RSelect ∧ timer σt = Some t0 ∧
            now σt = t0 + interval) as (Hnilt & Hrt & Htt & Hnt).
    { simpl in Hst. rewrite decide_True in Hst by (unfold dt; lia).
      simplify_eq/=. split_and!; try done. unfold dt. lia. }
    destruct (no_Stop_progress _ σt HIt Hnilt) as [Hen|(_ & t1 & Ht1 & Hlt1)].
    + congruence.
    + destruct (Hen CaseTimer) as [σ1 Hs1].
      pose proof (step_weight _ _ _ Hs1) as Hw. simpl in Hw.
      exists [ATick dt; ARun CaseTimer], σ1.
      split_and!; [|lia|done|repeat constructor].
      change (res_bind (step (ATick dt) σ)
                (λ σ', res_bind (step (ARun CaseTimer) σ') Ok) = Ok σ1).
      rewrite Hst. simpl. simpl in Hs1. by rewrite Hs1.
    + rewrite Htt in Ht1. simplify_eq. lia.
Qed.

(** From every state of the invariant the goroutines can be scheduled to
    their end, with no further call of [Stop] and no receive by a reader. *)
Lemma completion interval σ :
  SessInv interval σ →
  ∃ sched' σ', exec sched' σ = Ok σ' ∧ finished σ' ∧
    Stop_calls sched' = 0%nat ∧ Forall (λ a, is_receive a = false) sched'.
Proof.
  remember (weight σ) as n eqn:Hn.
  assert (Hle : (weight σ ≤ n)%nat) by lia. clear Hn.
  revert σ Hle. induction n as [|n IH]; intros σ Hle HI.
  all: destruct (finished_dec σ) as [Hf|Hnf];
    [by exists [], σ; split_and!; [done..|constructor]|].
  all: destruct (one_more_statement _ _ HI Hnf)
         as (sched1 & σ1 & He1 & Hw1 & Hsc1 & Hnr1).
  - lia.
  - destruct (IH σ1) as (sched2 & σ2 & He2 & Hf2 & Hsc2 & Hnr2);
      [lia|by eapply exec_SessInv|].
    exists (sched1 ++ sched2), σ2. split_and!.
    + by rewrite exec_app, He1.
    + done.
    + unfold Stop_calls in *. rewrite filter_app, length_app. lia.
    + by apply Forall_app.
Qed.

Lemma no_Stop_callers lw interval rv sched σ :
  exec sched (newPeriodicWatcher lw interval rv) = Ok σ →
  Stop_calls sched = 0%nat → callers σ = [].
Proof.
  intros He Hsc. pose proof (exec_callers_length _ _ _ He) as Hl.
  rewrite Hsc in Hl. simpl in Hl. by destruct (callers σ).
Qed.

Lemma Stop_calls_app sched1 sched2 :
  Stop_calls (sched1 ++ sched2) = (Stop_calls sched1 + Stop_calls sched2)%nat.
Proof. unfold Stop_calls. by rewrite filter_app, length_app. Qed.

(** Without a call of [Stop] and without a receive, the buffer holds
    every event sent. *)
Lemma unread_buf lw interval rv sched σ :
  exec sched (newPeriodicWatcher lw interval rv) = Ok σ →
  Stop_calls sched = 0%nat → Forall (λ a, is_receive a = false) sched →
  chan_buf (ch σ) = sent σ.
Proof.
  intros He Hsc Hnr.
  reached He HI.
  destruct (exec_unread _ _ _ He eq_refl Hsc Hnr) as [Hco Hdi]. simpl in *.
  by rewrite (si_buf _ _ _ HI), Hco, Hdi.
Qed.

(** The select of [run] is executed once: the case it took stays. *)
Lemma step_woken_by interval a σ σ' c :
  SessInv interval σ → woken_by σ = Some c → step a σ = Ok σ' →
  woken_by σ' = Some c.
Proof.
  intros HI Hw Hs. destruct a as [dt|pick| |i|]; simpl in Hs.
  - destruct (decide (0 ≤ dt)); by simplify_eq/=.
  - unfold run in Hs. pose proof (si_history _ _ _ HI) as Hh.
    destruct (run_at σ); simplify_eq/=; try done.
    + destruct Hh. congruence.
    + by destruct (chan_send _ _); simplify_eq/=.
    + destruct (stop TRun p σ) as [[next σ1]| |] eqn:Hst; simplify_eq/=.
      by stop_framed Hst.
    + by destruct (chan_close _); simplify_eq/=.
  - by simplify_eq/=.
  - unfold Stop in Hs. destruct (callers σ !! i) as [[p| |]|]; [| |done..].
    + destruct (stop (TCaller i) p σ) as [[next σ1]| |] eqn:Hst; simplify_eq/=.
      by stop_framed Hst.
    + by destruct (chan_recv _) as [[[e|] c']| |]; simplify_eq/=.
  - unfold receive in Hs.
    by destruct (chan_recv _) as [[[e|] c']| |]; simplify_eq/=.
Qed.

Lemma exec_woken_by interval sched σ σ' c :
  SessInv interval σ → woken_by σ = Some c → exec sched σ = Ok σ' →
  woken_by σ' = Some c.
Proof.
  revert σ. induction sched as [|a sched IH]; intros σ HI Hw He; simpl in He.
  - by simplify_eq.
  - destruct (step a σ) as [σ1| |] eqn:Hs; [|done..]. simpl in He.
    eapply IH; [by eapply step_SessInv|by eapply step_woken_by|done].
Qed.

(** When the select took the [w.done] case, no event has been sent. *)
Lemma done_case_silent interval σ :
  SessInv interval σ → woken_by σ = Some CaseDone →
  sent σ = [] ∧ consumed σ = [] ∧ discarded σ = [] ∧ chan_buf (ch σ) = [].
Proof.
  intros HI Hw. pose proof (si_history _ _ _ HI) as Hh.
  assert (sent σ = []) as Hs.
  { destruct (run_at σ); intuition congruence. }
  pose proof (si_buf _ _ _ HI) as Hb. rewrite Hs in Hb. symmetry in Hb.
  apply app_eq_nil in Hb as [? [? ?]%app_eq_nil]. done.
Qed.

(* ================================================================== *)
(** * Properties of the watch session                                  *)
(* ================================================================== *)

(** C2: in every state a schedule leads to, whatever the number of calls
    of [Stop] and however they interleave with the timer firing:
    no continuation of the schedule panics; [close(w.ch)] and
    [close(w.done)] have each completed at most once, and exactly once
    when the background goroutine has exited; at most one goroutine is
    inside the section guarded by the lock; while a call of [Stop] has
    not returned some goroutine can execute a statement; the goroutines
    execute at most [10 + 6 * calls] statements altogether; and the
    schedule can be continued, without a further call, to a state in which
    every call has returned and the background goroutine has exited. *)
Theorem C2_closed_once_no_panic lw interval rv sched σ :
  exec sched (newPeriodicWatcher lw interval rv) = Ok σ →
  (∀ sched', exec sched' σ ≠ Panic) ∧
  (ch_closes σ ≤ 1 ∧ done_closes σ ≤ 1)%nat ∧
  (run_at σ = RExited → ch_closes σ = 1%nat ∧ done_closes σ = 1%nat) ∧
  (∀ t1 t2 p1 p2, in_stop σ t1 = Some p1 → in_stop σ t2 = Some p2 →
     holds_lock p1 = true → holds_lock p2 = true → t1 = t2) ∧
  (Forall (λ pc, pc = PReturned) (callers σ) ∨ ∃ t, enabled (action_of t) σ) ∧
  (goroutine_steps sched ≤ 10 + 6 * Stop_calls sched)%nat ∧
  (∃ sched' σ', Stop_calls sched' = 0%nat ∧ exec sched' σ = Ok σ' ∧
     run_at σ' = RExited ∧ Forall (λ pc, pc = PReturned) (callers σ') ∧
     length (callers σ') = length (callers σ)).
Proof.
  intros He.
  reached He HI.
  split_and!.
  - intros sched'. by eapply exec_no_panic.
  - rewrite (si_ch_closes _ _ _ HI). by destruct (chan_closed _); lia.
  - rewrite (si_done_closes _ _ _ HI). by destruct (done_closed _); lia.
  - intros Hr. rewrite (si_ch_closes _ _ _ HI), (si_done_closes _ _ _ HI).
    rewrite (si_ch_closed _ _ _ HI), Hr.
    rewrite (SessInv_done_at_exit _ _ HI); [|by right].
    by rewrite bool_decide_eq_true_2.
  - intros t1 t2 p1 p2. eapply LockInv_mutex, (si_lock _ _ _ HI).
  - destruct (decide (Forall (λ pc, pc = PReturned) (callers σ))) as [?|Hn];
      [by left|right].
    destruct (progress _ _ HI) as [?|(_ & Hnil & _)]; [|done|].
    + intros [_ ?]. done.
    + destruct Hn. rewrite Hnil. constructor.
  - pose proof (exec_weight _ _ _ He) as Hw.
    change (weight (newPeriodicWatcher lw interval rv)) with 10%nat in Hw. lia.
  - destruct (completion _ _ HI) as (sched' & σ' & He' & [Hr Hc] & Hsc & _).
    exists sched', σ'. split_and!; try done.
    rewrite (exec_callers_length _ _ _ He'), Hsc. lia.
Qed.

(** C4: [Stop] asks for the transition before it starts to drain, each
    receive of the drain either drops an event or sees the channel closed
    and empty and only then lets [Stop] return, so that a call that has
    returned leaves the background goroutine exited with nothing to send;
    and neither the send nor the close of [run] is ever held up. *)
Theorem C4_stop_drains lw interval rv sched σ i :
  exec sched (newPeriodicWatcher lw interval rv) = Ok σ →
  (callers σ !! i = Some PDrain ∨ callers σ !! i = Some PReturned →
     pw_closed (pw σ) = true ∧ done_closed σ = true) ∧
  (callers σ !! i = Some PDrain → ∀ σ', step (AStop i) σ = Ok σ' →
     (∃ e rest, chan_buf (ch σ) = e :: rest ∧ chan_buf (ch σ') = rest ∧
        discarded σ' = discarded σ ++ [e] ∧ consumed σ' = consumed σ ∧
        callers σ' !! i = Some PDrain) ∨
     (chan_buf (ch σ) = [] ∧ chan_closed (ch σ) = true ∧
        callers σ' !! i = Some PReturned)) ∧
  (callers σ !! i = Some PDrain → chan_buf (ch σ) = [] →
     chan_closed (ch σ) = false → step (AStop i) σ = Blocked) ∧
  (callers σ !! i = Some PReturned →
     chan_closed (ch σ) = true ∧ chan_buf (ch σ) = [] ∧ run_at σ = RExited) ∧
  (run_at σ = RSend ∨ run_at σ = RDeferClose → ∀ pick, enabled (ARun pick) σ).
Proof.
  intros He.
  reached He HI.
  split_and!.
  - intros Hi.
    assert (pw_closed (pw σ) = true) as Hc.
    { destruct Hi as [Hi|Hi]; apply (si_callers _ _ _ HI) in Hi; simpl in Hi;
        intuition. }
    split; [done|]. by apply (li_closed _ _ (si_lock _ _ _ HI)).
  - intros Hi σ' Hs. simpl in Hs. unfold Stop, chan_recv in Hs. rewrite Hi in Hs.
    unfold ch. destruct (chan_buf (pw_ch (pw σ))) as [|e rest] eqn:Eb.
    + right. destruct (chan_closed (pw_ch (pw σ))); simplify_eq/=.
      split_and!; try done.
      rewrite list_lookup_insert_eq; [done|]. by eapply lookup_lt_Some.
    + left. simplify_eq/=. by exists e, rest.
  - intros Hi Hb Hc. simpl. unfold Stop, chan_recv. rewrite Hi.
    unfold ch in *. by rewrite Hb, Hc.
  - intros Hi. apply (si_callers _ _ _ HI) in Hi. simpl in Hi.
    destruct Hi as (_ & Hc & Hb). split_and!; try done.
    rewrite (si_ch_closed _ _ _ HI) in Hc. by apply bool_decide_eq_true in Hc.
  - intros [Hr|Hr] pick; [by eapply send_enabled|by eapply close_enabled].
Qed.


(** C10: the event channel has capacity 100 and never holds more than the
    one event ever sent, so the send of [run] can always proceed; and
    along a schedule in which nobody calls [Stop] and nobody receives,
    the event stays in the buffer while the background goroutine, held up
    by nothing but the timer, closes the channel and exits within ten
    statements, which it does when it is scheduled on with still nobody
    receiving. *)
Theorem C10_unread_buffer_no_block lw interval rv sched σ :
  exec sched (newPeriodicWatcher lw interval rv) = Ok σ →
  chan_cap (ch σ) = 100%nat ∧
  (length (chan_buf (ch σ)) ≤ length (sent σ) ≤ 1)%nat ∧
  (run_at σ = RSend → ∀ pick, enabled (ARun pick) σ) ∧
  (Stop_calls sched = 0%nat → Forall (λ a, is_receive a = false) sched →
     chan_buf (ch σ) = sent σ ∧
     (run_at σ ≠ RExited →
        (∀ pick, enabled (ARun pick) σ) ∨
        (run_at σ = RSelect ∧ ∃ t0, timer σ = Some t0 ∧ now σ < t0 + interval)) ∧
     (run_at σ = RExited →
        chan_closed (ch σ) = true ∧ chan_buf (ch σ) = [expiredEvent interval]) ∧
     (goroutine_steps sched + run_weight (run_at σ) ≤ 10)%nat ∧
     (∃ sched' σ', Stop_calls sched' = 0%nat ∧
        Forall (λ a, is_receive a = false) sched' ∧
        exec sched' σ = Ok σ' ∧ run_at σ' = RExited ∧
        chan_closed (ch σ') = true ∧
        chan_buf (ch σ') = [expiredEvent interval])).
Proof.
  intros He.
  reached He HI.
  split_and!.
  - apply (si_cap _ _ _ HI).
  - apply (SessInv_buf_length _ _ HI).
  - apply (SessInv_buf_length _ _ HI).
  - intros Hr pick. by eapply send_enabled.
  - intros Hsc Hnr.
    assert (Hnil : callers σ = []) by (by eapply no_Stop_callers).
    pose proof (unread_buf _ _ _ _ _ He Hsc Hnr) as Hbuf.
    split_and!.
    + done.
    + by apply no_Stop_progress.
    + intros Hr. rewrite (si_ch_closed _ _ _ HI), Hr, Hbuf.
      split; [by rewrite bool_decide_eq_true_2|by apply no_Stop_exit].
    + pose proof (exec_weight _ _ _ He) as Hw. rewrite Hsc in Hw.
      change (weight (newPeriodicWatcher lw interval rv)) with 10%nat in Hw.
      unfold weight in Hw. lia.
    + destruct (completion _ _ HI) as (sched' & σ' & He' & [Hr _] & Hsc' & Hnr').
      assert (Hall : exec (sched ++ sched') (newPeriodicWatcher lw interval rv)
                     = Ok σ') by (by rewrite exec_app, He).
      assert (HI' : SessInv interval σ') by (by eapply exec_SessInv).
      assert (Hsc'' : Stop_calls (sched ++ sched') = 0%nat)
        by (rewrite Stop_calls_app; lia).
      exists sched', σ'. split_and!; try done.
      * rewrite (si_ch_closed _ _ _ HI'), Hr. by rewrite bool_decide_eq_true_2.
      * rewrite (unread_buf _ _ _ _ _ Hall Hsc''); [|by apply Forall_app].
        apply no_Stop_exit; [done| |done]. by eapply no_Stop_callers.
Qed.

(** C3, as amended: when the select of [run] has taken the [w.done] case
    no event has been sent and, however the schedule goes on, none is ever
    sent, received or dropped; the select must take that case when it is
    executed with [w.done] closed and the interval not yet elapsed; and
    once a call of [Stop] has returned the channel is closed and empty and
    no schedule makes a reader receive, or the session send, anything
    more. *)
Theorem C3_stop_then_no_event lw interval rv sched σ :
  exec sched (newPeriodicWatcher lw interval rv) = Ok σ →
  (woken_by σ = Some CaseDone →
     ∀ sched' σ', exec sched' σ = Ok σ' →
       sent σ' = [] ∧ consumed σ' = [] ∧ discarded σ' = [] ∧
       chan_buf (ch σ') = []) ∧
  (run_at σ = RSelect → done_closed σ = true → timer_ready σ = false →
     ∀ pick, ∃ σ', step (ARun pick) σ = Ok σ' ∧
                   woken_by σ' = Some CaseDone ∧ run_at σ' = RDeferClose) ∧
  (∀ i, callers σ !! i = Some PReturned →
     chan_closed (ch σ) = true ∧ chan_buf (ch σ) = [] ∧
     ∀ sched' σ', exec sched' σ = Ok σ' →
       sent σ' = sent σ ∧ consumed σ' = consumed σ).
Proof.
  intros He.
  reached He HI.
  split_and!.
  - intros Hw sched' σ' He'. eapply done_case_silent.
    + by eapply exec_SessInv.
    + by eapply exec_woken_by.
  - intros Hr Hd Ht pick. simpl. unfold run, chan_ready.
    rewrite Hr, Ht, (li_done_buf _ _ (si_lock _ _ _ HI)).
    unfold done_closed in Hd. rewrite Hd. eauto.
  - intros i Hi. pose proof (si_callers _ _ _ HI _ _ Hi) as (_ & Hc & Hb).
    split_and!; try done. intros sched' σ' He'.
    by destruct (exec_after_return _ _ _ _ _ HI Hi He') as (_ & ? & ? & _).
Qed.


End SessionProofs.

(* ================================================================== *)
(** * Properties of the list-watch adapter                             *)
(* ================================================================== *)

Section AdapterProofs.

Variable time_Parse_RFC3339 : string → error + Time.
Variable Remote : Type.
Variable ListJobs : Client → Remote → (error + list Job) * Remote.

Local Abbreviation UnmarshalQueryParameter :=
  (UnmarshalQueryParameter time_Parse_RFC3339).
Local Abbreviation ListWatcher_Watch :=
  (ListWatcher_Watch time_Parse_RFC3339 Remote).
Local Abbreviation ListWatcher_List := (ListWatcher_List Remote ListJobs).

Lemma goroutines_new_session (w : world Remote) lw interval rv :
  goroutines (mkWorld (remote w) (fetches w)
                      (sessions w ++ [newPeriodicWatcher lw interval rv]))
  = S (goroutines w).
Proof.
  unfold goroutines. simpl. rewrite filter_app, length_app, filter_cons, filter_nil.
  simpl. lia.
Qed.

(** What [Watch] does with a token that stands for the time [rv]. *)
Lemma Watch_accepts lw options (w : world Remote) rv :
  UnmarshalQueryParameter (ResourceVersion options) = inr rv →
  ∃ h w', ListWatcher_Watch lw options w = (inr h, w') ∧
    h = length (sessions w) ∧
    sessions w' = sessions w ++ [newPeriodicWatcher lw (lw_interval lw) rv] ∧
    sessions w' !! h = Some (newPeriodicWatcher lw (lw_interval lw) rv) ∧
    run_at (newPeriodicWatcher lw (lw_interval lw) rv) = RStart ∧
    pw_interval (pw (newPeriodicWatcher lw (lw_interval lw) rv)) = lw_interval lw ∧
    pw_rv (pw (newPeriodicWatcher lw (lw_interval lw) rv)) = rv ∧
    goroutines w' = S (goroutines w) ∧
    remote w' = remote w ∧ fetches w' = fetches w.
Proof.
  intros Hrv. unfold ListWatcher_Watch. rewrite Hrv.
  eexists _, _. split_and!; try done.
  - simpl. rewrite lookup_app_r by done. by rewrite Nat.sub_diag.
  - apply goroutines_new_session.
Qed.

(** The parser is asked about every token but the empty one and the word
    null. *)
Lemma UnmarshalQueryParameter_parses token :
  token ≠ "" → token ≠ "null" →
  UnmarshalQueryParameter token =
    match time_Parse_RFC3339 token with inl err => inl err | inr pt => inr pt end.
Proof.
  intros Hne Hnn. unfold UnmarshalQueryParameter.
  destruct (decide (String.length token = 0%nat)) as [Hl|_].
  { by destruct token. }
  by destruct (decide (String.length token = 4%nat ∧ token = "null")) as [[_ ?]|_].
Qed.

(** C5, as the code has it: a token that is neither empty nor the word
    null and that the timestamp parser rejects makes [Watch] return the
    parser's error and leave the world as it was, with no session made and
    no goroutine started; a token that the timestamp parser accepts, and
    also the empty token and the word null, which no timestamp parser is
    asked about and which stand for the zero time, make it return a handle
    to a fresh session, the only new one, whose goroutine has been spawned
    and which carries the adapter's interval and the time of the token. *)
Theorem C5_Watch_checks_token_first lw options (w : world Remote) :
  let token := ResourceVersion options in
  (token ≠ "" → token ≠ "null" →
   ∀ err, time_Parse_RFC3339 token = inl err →
     ListWatcher_Watch lw options w = (inl err, w) ∧
     goroutines (ListWatcher_Watch lw options w).2 = goroutines w) ∧
  (∀ rv,
     (token ≠ "" ∧ token ≠ "null" ∧ time_Parse_RFC3339 token = inr rv) ∨
     ((token = "" ∨ token = "null") ∧ rv = zeroTime) →
     ∃ h w', ListWatcher_Watch lw options w = (inr h, w') ∧
       h = length (sessions w) ∧
       sessions w' = sessions w ++ [newPeriodicWatcher lw (lw_interval lw) rv] ∧
       sessions w' !! h = Some (newPeriodicWatcher lw (lw_interval lw) rv) ∧
       run_at (newPeriodicWatcher lw (lw_interval lw) rv) = RStart ∧
       pw_interval (pw (newPeriodicWatcher lw (lw_interval lw) rv)) = lw_interval lw ∧
       pw_rv (pw (newPeriodicWatcher lw (lw_interval lw) rv)) = rv ∧
       goroutines w' = S (goroutines w) ∧
       remote w' = remote w ∧ fetches w' = fetches w).
Proof.
  intros token. split.
  - intros Hne Hnn err Herr. unfold ListWatcher_Watch. fold token.
    rewrite (UnmarshalQueryParameter_parses token Hne Hnn), Herr. done.
  - intros rv Hrv. apply Watch_accepts. fold token.
    destruct Hrv as [(Hne & Hnn & Hrv)|[[Ht|Ht] ->]].
    + by rewrite (UnmarshalQueryParameter_parses token Hne Hnn), Hrv.
    + by rewrite Ht.
    + by rewrite Ht.
Qed.

(** C9: [Watch] with the empty token returns no error: the token stands
    for the zero time, and a session with its goroutine is made. *)
Theorem C9_Watch_empty_token lw options (w : world Remote) :
  ResourceVersion options = "" →
  UnmarshalQueryParameter "" = inr zeroTime ∧
  ListWatcher_Watch lw options w =
    (inr (length (sessions w)),
     mkWorld (remote w) (fetches w)
             (sessions w ++ [newPeriodicWatcher lw (lw_interval lw) zeroTime])) ∧
  goroutines (ListWatcher_Watch lw options w).2 = S (goroutines w).
Proof.
  intros Hrv. unfold ListWatcher_Watch. rewrite Hrv.
  split_and!; try done. apply goroutines_new_session.
Qed.

(** C6: [List] never looks at its options, calls [ListJobs] exactly once,
    and returns what that call returned: the error as it is, or the whole
    list. *)
Theorem C6_List_one_fetch lw options (w : world Remote) :
  ListWatcher_List lw options w =
    (match (ListJobs (lw_client lw) (remote w)).1 with
     | inl err => inl err
     | inr list => inr (JobListObject list)
     end,
     mkWorld (ListJobs (lw_client lw) (remote w)).2 (S (fetches w)) (sessions w)) ∧
  fetches (ListWatcher_List lw options w).2 = S (fetches w) ∧
  ∀ options', ListWatcher_List lw options' w = ListWatcher_List lw options w.
Proof.
  unfold ListWatcher_List, call_ListJobs.
  destruct (ListJobs (lw_client lw) (remote w)) as [[err|list] remote']; done.
Qed.

End AdapterProofs.

(* ================================================================== *)
(** * Properties of the job lister                                     *)
(* ================================================================== *)

Section ListerProofs.

Context {I : Type} `{Indexer I}.
Variable strconv_Quote : string → string.

Local Abbreviation Lister_Get := (Lister_Get strconv_Quote).

(** C7: [Get] leaves the lister and its cache as they were; it returns
    the error of the indexer as it is; for a key the indexer does not have
    it returns the not-found status error that carries the group and
    resource of the lister and the key; and for a key whose item is a job
    it returns that job. *)
Theorem C7_Get_by_key (s : Lister I) (id : string) :
  (Lister_Get s id).1 = s ∧
  (∀ item found e, GetByKey (indexer s) id = (item, found, Some e) →
     (Lister_Get s id).2 = Ok (inl e)) ∧
  (∀ item, GetByKey (indexer s) id = (item, false, None) →
     ∃ err, (Lister_Get s id).2 = Ok (inl (statusError err)) ∧
       err = NewNotFound strconv_Quote (resource s) id ∧
       IsNotFound (statusError err) = true ∧
       st_Code (ErrStatus err) = 404 ∧
       st_Details (ErrStatus err) =
         Some {| d_Name := id; d_Group := Group (resource s);
                 d_Kind := Resource (resource s) |}) ∧
  (∀ j, GetByKey (indexer s) id = (Some (JobObject j), true, None) →
     (Lister_Get s id).2 = Ok (inr j)) ∧
  resource (NewLister (indexer s)) =
    {| Group := "search.openshift.io"; Resource := "prow" |}.
Proof.
  unfold Lister_Get.
  destruct (GetByKey (indexer s) id) as [[item found] err] eqn:Hg.
  split_and!; try done.
  - intros ??? [= -> -> ->]. done.
  - intros ? [= -> -> ->]. simpl. eexists. split_and!; done.
  - intros ? [= -> -> ->]. done.
Qed.

(** What [ListAll] hands to the appending callback of [Lister.List], on a
    list of job records. *)
Lemma ListAll_loop_jobs selector (items : list Object) (acc : list Job) :
  (sel_Empty selector = true → ∀ l, sel_Matches selector l = true) →
  (∀ m, m ∈ items → ∃ j, m = JobObject j) →
  ListAll_loop (sel_Empty selector) selector
    (λ m ret, res_bind (assert_Job (Some m)) (λ j, Ok (ret ++ [j]))) items acc
  = Ok (acc ++ filter (λ j, sel_Matches selector (job_labels j) = true)
                      (jobs_of items), None).
Proof.
  intros Hsel. revert acc.
  induction items as [|m items IH]; intros acc Hjobs; simpl.
  - by rewrite app_nil_r.
  - destruct (Hjobs m) as [j ->]; [by left|].
    assert (Hrest : ∀ m, m ∈ items → ∃ j, m = JobObject j).
    { intros m' Hm'. apply Hjobs. by right. }
    unfold jobs_of. simpl. fold (jobs_of items). rewrite filter_cons.
    destruct (sel_Empty selector) eqn:He; simpl.
    + rewrite (Hsel eq_refl). case_decide; [|done].
      rewrite IH by done. by rewrite <-app_assoc.
    + destruct (sel_Matches selector (job_labels j)) eqn:Hm; simpl.
      * rewrite IH by done. by rewrite <-app_assoc.
      * by rewrite IH.
Qed.

(** [ListAll] fails only on an object without metadata, met while a
    selector that is not empty is applied. *)
Lemma ListAll_loop_error {A} selector (f : Object → A → res A)
  (items : list Object) (acc acc' : A) (e : error) :
  ListAll_loop (sel_Empty selector) selector f items acc = Ok (acc', Some e) →
  sel_Empty selector = false ∧ ∃ m, m ∈ items ∧ meta_Accessor m = inl e.
Proof.
  revert acc. induction items as [|m items IH]; intros acc; simpl; [done|].
  destruct (sel_Empty selector) eqn:He.
  - destruct (f m acc) as [a| |]; simpl; [|done..].
    intros Hl. destruct (IH _ Hl) as [? _]. done.
  - destruct (meta_Accessor m) as [err|l] eqn:Hm.
    + intros [= -> ->]. split; [done|]. exists m. split; [by left|done].
    + assert (∀ acc, ListAll_loop false selector f items acc = Ok (acc', Some e) →
                false = false ∧ ∃ m0, m0 ∈ m :: items ∧ meta_Accessor m0 = inl e) as Hk.
      { intros acc0 Hl. destruct (IH _ Hl) as [_ (m0 & ? & ?)].
        split; [done|]. exists m0. split; [by right|done]. }
      destruct (sel_Matches selector l); [|by apply Hk].
      destruct (f m acc) as [a| |]; simpl; [by apply Hk|done..].
Qed.

(** C8: for a selector whose [Empty] agrees with its [Matches],
    [Lister.List] leaves the lister as it was; it returns an error only
    when the enumeration met an object without metadata; and over a cache
    of job records it returns, without error, exactly the records whose
    labels match, each as often as the cache enumerates it, and so the
    empty list when none matches. *)
Theorem C8_List_by_selector (s : Lister I) (selector : Selector) :
  (sel_Empty selector = true → ∀ l, sel_Matches selector l = true) →
  (Lister_List s selector).1 = s ∧
  (∀ ret e, (Lister_List s selector).2 = Ok (ret, Some e) →
     ∃ m, m ∈ Store_List (indexer s) ∧ meta_Accessor m = inl e) ∧
  ((∀ m, m ∈ Store_List (indexer s) → ∃ j, m = JobObject j) →
     ∃ ret, (Lister_List s selector).2 = Ok (ret, None) ∧
       ret = filter (λ j, sel_Matches selector (job_labels j) = true)
                    (jobs_of (Store_List (indexer s))) ∧
       (∀ j, j ∈ ret ↔ JobObject j ∈ Store_List (indexer s) ∧
                       sel_Matches selector (job_labels j) = true) ∧
       ((∀ j, JobObject j ∈ Store_List (indexer s) →
              sel_Matches selector (job_labels j) = false) → ret = [])).
Proof.
  intros Hsel. split_and!; [done| |].
  - intros ret e Hl. simpl in Hl. unfold ListAll in Hl.
    by apply ListAll_loop_error in Hl as [_ ?].
  - intros Hjobs. eexists. split; [|split_and!; [reflexivity| |]].
    + simpl. unfold ListAll. by rewrite ListAll_loop_jobs.
    + intros j. rewrite list_elem_of_filter. unfold jobs_of.
      rewrite list_elem_of_omap. split.
      * intros [Hm (m & Hin & Hj)]. destruct m; simplify_eq. done.
      * intros [Hin Hm]. split; [done|]. by exists (JobObject j).
    + intros Hnone. apply elem_of_nil_inv. intros j.
      rewrite list_elem_of_filter. intros [Hm Hj].
      unfold jobs_of in Hj. apply list_elem_of_omap in Hj as (m & Hin & Hj').
      destruct m; simplify_eq. rewrite (Hnone _ Hin) in Hm. done.
Qed.

End ListerProofs.

(* ================================================================== *)
(** * The properties on sample runs                                    *)
(* ================================================================== *)


Lemma C2_witness :
  exec show_ns sched_two_stops sample_session = Ok (final_of sched_two_stops) ∧
  callers (final_of sched_two_stops) = [PReturned; PReturned] ∧
  ch_closes (final_of sched_two_stops) = 1%nat ∧
  done_closes (final_of sched_two_stops) = 1%nat ∧
  (goroutine_steps sched_two_stops ≤ 22)%nat.
Proof.
  assert (He : exec show_ns sched_two_stops sample_session
               = Ok (final_of sched_two_stops)) by (vm_compute; reflexivity).
  destruct (C2_closed_once_no_panic show_ns sample_lw 5 zeroTime _ _ He)
    as (_ & _ & Hexit & _ & _ & Hsteps & _).
  split_and!; [done|reflexivity|apply Hexit; reflexivity..|apply Hsteps].
Defined.

Lemma C3_witness :
  exec show_ns sched_stop_first sample_session = Ok (final_of sched_stop_first) ∧
  callers (final_of sched_stop_first) !! 0%nat = Some PReturned ∧
  woken_by (final_of sched_stop_first) = Some CaseDone ∧
  sent (final_of sched_stop_first) = [] ∧
  consumed (final_of sched_stop_first) = [] ∧
  chan_closed (ch (final_of sched_stop_first)) = true ∧
  ∀ sched' σ', exec show_ns sched' (final_of sched_stop_first) = Ok σ' →
               sent σ' = [] ∧ consumed σ' = [].
Proof.
  assert (He : exec show_ns sched_stop_first sample_session
               = Ok (final_of sched_stop_first)) by (vm_compute; reflexivity).
  destruct (C3_stop_then_no_event show_ns sample_lw 5 zeroTime _ _ He)
    as (Hdone & _ & Hret).
  destruct (Hdone eq_refl [] _ eq_refl) as (Hs & Hc & _).
  destruct (Hret 0%nat eq_refl) as (Hcl & _ & Hafter).
  split_and!; [done|reflexivity|reflexivity|done|done|done|].
  intros sched' σ' He'. destruct (Hafter _ _ He') as [-> ->]. done.
Defined.

Lemma C4_witness :
  exec show_ns sched_two_stops sample_session = Ok (final_of sched_two_stops) ∧
  callers (final_of sched_two_stops) !! 0%nat = Some PReturned ∧
  discarded (final_of sched_two_stops) = [sample_expired] ∧
  pw_closed (pw (final_of sched_two_stops)) = true ∧
  chan_closed (ch (final_of sched_two_stops)) = true ∧
  chan_buf (ch (final_of sched_two_stops)) = [] ∧
  run_at (final_of sched_two_stops) = RExited.
Proof.
  assert (He : exec show_ns sched_two_stops sample_session
               = Ok (final_of sched_two_stops)) by (vm_compute; reflexivity).
  destruct (C4_stop_drains show_ns sample_lw 5 zeroTime _ _ 0%nat He)
    as (Hreq & _ & _ & Hret & _).
  destruct (Hreq (or_intror eq_refl)) as [Hc _].
  destruct (Hret eq_refl) as (? & ? & ?).
  split_and!; [done|reflexivity|reflexivity|done..].
Defined.

Lemma C10_witness :
  exec show_ns sched_expiry sample_session = Ok (final_of sched_expiry) ∧
  Forall (λ a, is_receive a = false) sched_expiry ∧
  chan_cap (ch (final_of sched_expiry)) = 100%nat ∧
  chan_closed (ch (final_of sched_expiry)) = true ∧
  chan_buf (ch (final_of sched_expiry)) = [sample_expired] ∧
  now (final_of sched_expiry) = 5.
Proof.
  assert (He : exec show_ns sched_expiry sample_session
               = Ok (final_of sched_expiry)) by (vm_compute; reflexivity).
  assert (Hnr : Forall (λ a, is_receive a = false) sched_expiry).
  { unfold sched_expiry. simpl. repeat constructor. }
  destruct (C10_unread_buffer_no_block show_ns sample_lw 5 zeroTime _ _ He)
    as (Hcap & _ & _ & Hunread).
  destruct (Hunread eq_refl Hnr) as (_ & _ & Hexit & _).
  destruct (Hexit eq_refl) as [Hcl Hbuf].
  split_and!; [done|done|done|done|apply Hbuf|reflexivity].
Defined.

(** C3 as the spec states it fails.  In the sample session [Stop] is
    called, and has closed [w.done] and set the flag, at time 0, with the
    interval of 5ns not elapsed ([sched_stop_early]); the goroutine gets to
    its select only at time 5, when both cases are ready, the select picks
    the timer, and the event is sent ([sched_late_select]). *)
Lemma C3_counterexample :
  ¬ (∀ sched1 sched2 σ1 σ2,
       exec show_ns sched1 sample_session = Ok σ1 →
       callers σ1 ≠ [] → timer_ready σ1 = false →
       exec show_ns sched2 σ1 = Ok σ2 →
       sent σ2 = []).
Proof.
  intros Hclaim.
  specialize (Hclaim sched_stop_early sched_late_select
                (final_of sched_stop_early)
                (final_of (sched_stop_early ++ sched_late_select))).
  assert (sent (final_of (sched_stop_early ++ sched_late_select)) = []) as Hs.
  { apply Hclaim; [by vm_compute..]. }
  vm_compute in Hs. discriminate Hs.
Qed.

(** The same run, step by step: the call of [Stop] has done its part
    before the interval has elapsed, and still the event is sent and a
    reader of the result channel receives it. *)
Lemma stop_early_select_late :
  exec show_ns sched_stop_early sample_session = Ok (final_of sched_stop_early) ∧
  callers (final_of sched_stop_early) = [PDrain] ∧
  pw_closed (pw (final_of sched_stop_early)) = true ∧
  done_closed (final_of sched_stop_early) = true ∧
  now (final_of sched_stop_early) = 0 ∧
  deadline (final_of sched_stop_early) = Some 5 ∧
  exec show_ns sched_late_select (final_of sched_stop_early)
    = Ok (final_of (sched_stop_early ++ sched_late_select)) ∧
  sent (final_of (sched_stop_early ++ sched_late_select)) = [sample_expired] ∧
  consumed (final_of (sched_stop_early ++ sched_late_select)) = [sample_expired].
Proof. by vm_compute. Qed.

(** The other way the race goes: [Stop] is called before the interval has
    elapsed, and the timer fires before the call has closed [w.done]. *)
Lemma stop_called_timer_first :
  exec show_ns sched_stop_at_4 sample_session = Ok (final_of sched_stop_at_4) ∧
  callers (final_of sched_stop_at_4) = [PStop SCheck] ∧
  done_closed (final_of sched_stop_at_4) = false ∧
  now (final_of sched_stop_at_4) = 4 ∧
  deadline (final_of sched_stop_at_4) = Some 5 ∧
  exec show_ns sched_timer_first (final_of sched_stop_at_4)
    = Ok (final_of (sched_stop_at_4 ++ sched_timer_first)) ∧
  woken_by (final_of (sched_stop_at_4 ++ sched_timer_first)) = Some CaseTimer ∧
  sent (final_of (sched_stop_at_4 ++ sched_timer_first)) = [sample_expired].
Proof. by vm_compute. Qed.

Lemma C5_witness :
  ListWatcher_Watch sample_parse unit sample_lw
    (mkListOptions "" "" "yesterday" None 0 "") sample_world
  = (inl (otherError "parsing time: cannot parse"), sample_world) ∧
  ListWatcher_Watch sample_parse unit sample_lw
    (mkListOptions "" "" "0001-01-01T00:00:05Z" None 0 "") sample_world
  = (inr 0%nat, {| remote := (); fetches := 0;
                   sessions := [newPeriodicWatcher sample_lw 5 (mkTime 5 0)] |}) ∧
  ListWatcher_Watch sample_parse unit sample_lw
    (mkListOptions "" "" "null" None 0 "") sample_world
  = (inr 0%nat, {| remote := (); fetches := 0;
                   sessions := [newPeriodicWatcher sample_lw 5 zeroTime] |}).
Proof.
  split_and!.
  - apply (C5_Watch_checks_token_first sample_parse unit sample_lw
             (mkListOptions "" "" "yesterday" None 0 "") sample_world);
      [discriminate|discriminate|reflexivity].
  - destruct (proj2 (C5_Watch_checks_token_first sample_parse unit sample_lw
             (mkListOptions "" "" "0001-01-01T00:00:05Z" None 0 "") sample_world)
             (mkTime 5 0)) as (h & w' & -> & -> & Hs & _ & _ & _ & _ & _ & Hr & Hf).
    + left. split_and!; [discriminate|discriminate|reflexivity].
    + destruct w' as [r f ss]. simpl in *. by subst.
  - destruct (proj2 (C5_Watch_checks_token_first sample_parse unit sample_lw
             (mkListOptions "" "" "null" None 0 "") sample_world)
             zeroTime) as (h & w' & -> & -> & Hs & _ & _ & _ & _ & _ & Hr & Hf).
    + right. split; [by right|reflexivity].
    + destruct w' as [r f ss]. simpl in *. by subst.
Defined.

(** C5 as the spec states it fails.  The word null is no encoding of a
    timestamp, the sample parser rejects it as every parser of RFC 3339
    does, and [Watch] on it returns no error: it makes a session for the
    zero time and starts its goroutine. *)
Lemma C5_counterexample :
  ¬ (∀ options (w : world unit),
       (∀ t, sample_parse (ResourceVersion options) ≠ inr t) →
       ∃ err, ListWatcher_Watch sample_parse unit sample_lw options w
              = (inl err, w)).
Proof.
  intros Hclaim.
  destruct (Hclaim (mkListOptions "" "" "null" None 0 "") sample_world)
    as [err Herr].
  - intros t. vm_compute. discriminate.
  - vm_compute in Herr. discriminate Herr.
Qed.

(** The same two calls, spelled out: the empty token and the word null
    are rejected by the timestamp parser and accepted by [Watch], which
    starts a goroutine for each. *)
Lemma Watch_null_and_empty_token :
  sample_parse "" = inl (otherError "parsing time: cannot parse") ∧
  sample_parse "null" = inl (otherError "parsing time: cannot parse") ∧
  (ListWatcher_Watch sample_parse unit sample_lw
     (mkListOptions "" "" "" None 0 "") sample_world).1 = inr 0%nat ∧
  (ListWatcher_Watch sample_parse unit sample_lw
     (mkListOptions "" "" "null" None 0 "") sample_world).1 = inr 0%nat ∧
  goroutines (ListWatcher_Watch sample_parse unit sample_lw
     (mkListOptions "" "" "null" None 0 "") sample_world).2 = 1%nat.
Proof. by vm_compute. Qed.

Lemma C9_witness :
  ResourceVersion (mkListOptions "" "" "" None 0 "") = "" ∧
  ListWatcher_Watch sample_parse unit sample_lw
    (mkListOptions "" "" "" None 0 "") sample_world
  = (inr 0%nat, {| remote := (); fetches := 0;
                   sessions := [newPeriodicWatcher sample_lw 5 zeroTime] |}).
Proof.
  split; [reflexivity|].
  apply (C9_Watch_empty_token sample_parse unit sample_lw
           (mkListOptions "" "" "" None 0 "") sample_world eq_refl).
Defined.

Lemma C8_witness :
  (sel_Empty state_is_failure = true →
   ∀ l, sel_Matches state_is_failure l = true) ∧
  (Lister_List (NewLister sample_store) state_is_failure).2 = Ok ([job_a], None).
Proof.
  assert (Hsel : sel_Empty state_is_failure = true →
                 ∀ l, sel_Matches state_is_failure l = true) by (intros [=]).
  split; [done|].
  destruct (C8_List_by_selector (NewLister sample_store) state_is_failure Hsel)
    as (_ & _ & Hjobs).
  destruct Hjobs as (ret & -> & -> & _).
  - intros m Hm. vm_compute in Hm.
    apply list_elem_of_In in Hm. simpl in Hm.
    destruct Hm as [<-|[<-|[]]]; eauto.
  - by vm_compute.
Defined.

(** The scenario of the spec: a cache with a failed job [a] and a
    successful job [b]. *)
Lemma sample_store_scenario :
  (Lister_List (NewLister sample_store) state_is_failure).2 = Ok ([job_a], None) ∧
  (Lister_Get sample_quote (NewLister sample_store) "b").2 = Ok (inr job_b) ∧
  ∃ e, (Lister_Get sample_quote (NewLister sample_store) "c").2 = Ok (inl e) ∧
       IsNotFound e = true.
Proof.
  split_and!; [by vm_compute..|].
  eexists. split; [by vm_compute|]. by vm_compute.
Qed.

(* ================================================================== *)
(** * Further properties: the parameters of the search page            *)
(* ================================================================== *)

Section SearchPageProofs.

Variable HTMLEscapeString : string → string.
Variable strconv_Atoi : string → error + Z.
Variable strconv_Itoa : Z → string.
Variable time_ParseDuration : string → error + Duration.
Variable Duration_String : Duration → string.

Local Abbreviation handleIndex_params :=
  (handleIndex_params HTMLEscapeString strconv_Atoi strconv_Itoa
     time_ParseDuration Duration_String).
Local Abbreviation contextChoices :=
  (contextChoices HTMLEscapeString strconv_Itoa).
Local Abbreviation searchTypeChoices := (searchTypeChoices HTMLEscapeString).
Local Abbreviation maxAgeChoices :=
  (maxAgeChoices HTMLEscapeString Duration_String).

(** Take [handleIndex_params] apart, check after check: each of the
    three checked parameters is named with the equation that gives it. *)
Ltac params_cases H :=
  unfold handleIndex_params in H;
  match type of H with context [req_ParseForm ?r] =>
    destruct (req_ParseForm r) eqn:?; [by simplify_eq|] end;
  cbv zeta in H;
  repeat match type of H with
  | match ?x with Some _ => _ | None => _ end = _ =>
      let E := fresh "E" in destruct x eqn:E; [|discriminate H]
  end;
  injection H as H; symmetry in H.

(** X1: whenever [handleIndex] gets as far as writing the page, the
    context lies between -1 and 15, the type is one of the three known
    ones, the age is not negative and, when the server has a limit, not
    above it, the search text is the one of the request, and the three
    drop-down lists are those of these final values (the list of ages is
    that of the age after the server's limit has been applied). *)
Theorem handleIndex_params_checked o req p :
  handleIndex_params o req = inr p →
  req_ParseForm req = None ∧
  -1 ≤ ix_Context (pp_index p) ≤ 15 ∧
  ix_SearchType (pp_index p) ∈ ["junit"; "build-log"; "all"] ∧
  0 ≤ ix_MaxAge (pp_index p) ∧
  (0 < o_MaxAge o → ix_MaxAge (pp_index p) ≤ o_MaxAge o) ∧
  ix_Search (pp_index p) = FormValue req "search" ∧
  pp_contextOptions p = option_tag <$> contextChoices (ix_Context (pp_index p)) ∧
  pp_searchTypeOptions p
    = option_tag <$> searchTypeChoices (ix_SearchType (pp_index p)) ∧
  pp_maxAgeOptions p = option_tag <$> maxAgeChoices (ix_MaxAge (pp_index p)).
Proof.
  intros Hp. params_cases Hp. rename i into i1, s into ty, i0 into i3.
  assert (H1 : -1 ≤ ix_Context i1 ≤ 15 ∧ ix_MaxAge i1 = 7 * 24 * Hour ∧
               ix_Search i1 = FormValue req "search").
  { clear -E. repeat case_decide; try case_match; repeat case_decide;
      simplify_eq/=; split_and?; try done; try lia.
    all: by destruct (FormValue req "search"); [|simpl in *; lia]. }
  assert (H2 : ty ∈ ["junit"; "build-log"; "all"]).
  { clear -E0. repeat case_decide; simplify_eq; repeat constructor. }
  assert (H3 : ix_Context i3 = ix_Context i1 ∧ ix_SearchType i3 = ty ∧
               0 ≤ ix_MaxAge i3 ∧ ix_Search i3 = ix_Search i1).
  { clear -E1 H1. destruct H1 as (_ & H1 & _). repeat case_decide; try case_match; repeat case_decide;
      simplify_eq/=; split_and?; try done; try lia.
    rewrite H1. unfold Hour. lia. }
  subst p.
  lazy beta iota delta [pp_index pp_contextOptions pp_searchTypeOptions
                        pp_maxAgeOptions].
  destruct H1 as (? & ? & ?), H3 as (Hc3 & Hs3 & ? & ?).
  clear E E0 E1.
  case_decide; cbn [ix_Context ix_SearchType ix_MaxAge ix_Search];
    split_and?; try done; try lia; try congruence.
  all: by rewrite ?Hc3, ?Hs3.
Qed.

(** X2: [handleIndex] answers with an error exactly in four cases, tried
    in this order: the form cannot be parsed; [context] is given and is
    not a number from -1 to 15; [type] is none of junit, build-log, all
    and the empty string; [maxAge] is given and is not a duration of at
    least zero.  Every such answer has status 500, and the message for a
    wrong [type] names the parameter [search]. *)
Theorem handleIndex_params_rejected o req r :
  handleIndex_params o req = inl r ↔
  let context := FormValue req "context" in
  let type := FormValue req "type" in
  let value := FormValue req "maxAge" in
  let context_ok :=
    context = "" ∨ ∃ num, strconv_Atoi context = inr num ∧ -1 ≤ num ≤ 15 in
  let type_ok := type ∈ ["junit"; "build-log"; "all"; ""] in
  let value_ok :=
    value = "" ∨ ∃ d, time_ParseDuration value = inr d ∧ 0 ≤ d in
  (∃ err, req_ParseForm req = Some err ∧
     r = http_Error ("Bad input: " ++ error_Error err) 500) ∨
  (req_ParseForm req = None ∧ ¬ context_ok ∧
     r = http_Error "?context must be a number between -1 and 15" 500) ∨
  (req_ParseForm req = None ∧ context_ok ∧ ¬ type_ok ∧
     r = http_Error "?search must be 'junit', 'build-log', or 'all'" 500) ∨
  (req_ParseForm req = None ∧ context_ok ∧ type_ok ∧ ¬ value_ok ∧
     r = http_Error "?maxAge must be a non-negative duration" 500).
Proof.
  cbv zeta.
  set (P := _ ∨ ∃ num, strconv_Atoi _ = _ ∧ _).
  set (T := _ ∈ _).
  set (Q := _ ∨ ∃ d, time_ParseDuration _ = _ ∧ _).
  unfold handleIndex_params, StatusInternalServerError.
  destruct (req_ParseForm req) as [err|].
  { split; [intros [= <-]; left; by eexists|].
    intros [(? & [= <-] & ->)|[(? & _)|[(? & _)|(? & _)]]]; done. }
  cbv zeta.
  match goal with |- (match ?x with Some _ => _ | None => _ end = _) ↔ _ =>
    destruct x as [i1|] eqn:E1 end.
  2: { assert (¬ P) as HP.
       { clear -E1. intros [HP|(num & HP & ?)].
         - by rewrite HP in E1.
         - rewrite HP in E1. repeat case_decide; (done || lia). }
       split; [intros [= <-]; right; by left|].
       by intros [(? & ? & _)|[(_ & _ & ->)|[(_ & ? & _)|(_ & ? & _)]]]. }
  assert (P) as HP.
  { clear -E1. unfold P. case_decide as Hc.
    - right. case_match; [done|]. case_decide; [done|].
      eexists; split; [done|lia].
    - left. destruct (FormValue req "context"); [done|simpl in Hc; lia]. }
  match goal with |- (match ?x with Some _ => _ | None => _ end = _) ↔ _ =>
    destruct x as [ty|] eqn:E2 end.
  2: { assert (¬ T) as HT.
       { clear -E2. unfold T. rewrite !elem_of_cons, elem_of_nil.
         repeat case_decide; (done || tauto). }
       split; [intros [= <-]; right; right; by left|].
       by intros [(? & ? & _)|[(_ & ? & _)|[(_ & _ & _ & ->)|(_ & _ & ? & _)]]]. }
  assert (T) as HT.
  { clear -E2. unfold T. rewrite !elem_of_cons, elem_of_nil.
    repeat case_decide; (done || tauto). }
  match goal with |- (match ?x with Some _ => _ | None => _ end = _) ↔ _ =>
    destruct x as [i3|] eqn:E3 end.
  2: { assert (¬ Q) as HQ.
       { clear -E3. intros [HQ|(d & HQ & ?)].
         - by rewrite HQ in E3.
         - rewrite HQ in E3. repeat case_decide; (done || lia). }
       split; [intros [= <-]; right; right; by right|].
       by intros [(? & ? & _)|[(_ & ? & _)|[(_ & _ & ? & _)|(_ & _ & _ & _ & ->)]]]. }
  assert (Q) as HQ.
  { clear -E3. unfold Q. case_decide as Hc.
    - right. case_match; [done|]. case_decide; [done|].
      eexists; split; [done|lia].
    - left. destruct (FormValue req "maxAge"); [done|simpl in Hc; lia]. }
  split; [done|].
  by intros [(? & ? & _)|[(_ & ? & _)|[(_ & _ & ? & _)|(_ & _ & _ & ? & _)]]].
Qed.

(** X3: in the list of ages and in the list of types exactly one entry
    is marked as selected, whatever the age and for each of the three
    types.  In the list of contexts exactly one entry is marked for every
    context but two: for -1 no entry is, since the entry of -1 is marked
    when the context is 1, and for 1 that entry and the entry of 1 both
    are. *)
Theorem selected_entries :
  (∀ MaxAge, length (selected_choices (maxAgeChoices MaxAge)) = 1%nat) ∧
  (∀ SearchType, SearchType ∈ ["junit"; "build-log"; "all"] →
     length (selected_choices (searchTypeChoices SearchType)) = 1%nat) ∧
  (∀ context, length (selected_choices (contextChoices context)) =
     if decide (context = -1) then 0%nat
     else if decide (context = 1) then 2%nat else 1%nat).
Proof.
  split_and!.
  - intros MaxAge. unfold maxAgeChoices.
    destruct (decide (MaxAge ∈ _)) as [Hin|Hn].
    + rewrite !elem_of_cons, elem_of_nil in Hin.
      destruct Hin as [->|[->|[->|[->|[->|[->|[]]]]]]]; by vm_compute.
    + unfold durationSelected.
      repeat (case_decide;
        [first [exfalso; apply Hn; subst MaxAge; by repeat constructor|idtac]|]);
        done.
  - intros SearchType Hin. rewrite !elem_of_cons, elem_of_nil in Hin.
    destruct Hin as [->|[->|[->|[]]]]; by vm_compute.
  - intros context. unfold contextChoices.
    destruct (decide (context ∈ _)) as [Hin|Hn].
    + rewrite !elem_of_cons, elem_of_nil in Hin.
      destruct Hin as [->|[->|[->|[->|[->|[->|[->|[->|[->|[]]]]]]]]]];
        by vm_compute.
    + assert (context ≠ -1 ∧ context ≠ 1) as [? ?].
      { split; intros ->; apply Hn; repeat constructor. }
      rewrite !decide_False by done.
      unfold intSelected.
      repeat (case_decide;
        [exfalso; apply Hn; subst context; by repeat constructor|]).
      done.
Qed.

End SearchPageProofs.

(* ================================================================== *)
(** * Further properties: how a result name is taken apart             *)
(* ================================================================== *)

Lemma app_String c (s t : string) : (String c s ++ t)%string = String c (s ++ t).
Proof. done. Qed.


Lemma split_first_Some sep s a b :
  split_first sep s = Some (a, b) →
  s = (a ++ String sep b)%string ∧ split_first sep a = None.
Proof.
  revert a. induction s as [|c s IH]; intros a Hs; simpl in Hs; [done|].
  destruct (decide (c = sep)) as [->|Hc]; [by simplify_eq|].
  destruct (split_first sep s) as [[a' b']|]; [|done]. simplify_eq.
  destruct (IH a' eq_refl) as [-> Ha]. split; [done|].
  simpl. by rewrite decide_False, Ha.
Qed.

Lemma split_first_None sep s :
  split_first sep s = None ↔ count_sep sep s = 0%nat.
Proof.
  induction s as [|c s IH]; simpl; [done|].
  destruct (decide (c = sep)); [done|].
  destruct (split_first sep s) as [[a b]|]; simpl.
  - split; [done|]. intros Hc. by apply IH in Hc.
  - split; [|done]. intros _. by apply IH.
Qed.

Lemma count_sep_app sep (s t : string) :
  count_sep sep (s ++ t) = (count_sep sep s + count_sep sep t)%nat.
Proof.
  induction s as [|c s IH]; [done|]. rewrite app_String. simpl. rewrite IH. lia.
Qed.



(** [bytes.SplitN] gives between one and [n] pieces, joining them with
    the separator gives the name back, and no piece but the last holds a
    separator. *)
Lemma SplitN_length s sep n :
  (1 ≤ length (SplitN s sep (S n)) ≤ S n)%nat.
Proof.
  revert s. induction n as [|n IH]; intros s; simpl; [lia|].
  destruct (split_first sep s) as [[a b]|]; simpl; [|lia].
  specialize (IH b). simpl in IH. lia.
Qed.



(** The number of pieces is the number of separators and one, up to [n];
    with more separators than that the last piece holds the rest of
    them. *)
Lemma SplitN_count s sep n :
  length (SplitN s sep (S n)) = (S n `min` S (count_sep sep s))%nat ∧
  ∀ p, last (SplitN s sep (S n)) = Some p →
       count_sep sep p = (count_sep sep s - n)%nat.
Proof.
  revert s. induction n as [|n IH]; intros s.
  { simpl. split; [lia|]. intros p [= <-]. lia. }
  change (SplitN s sep (S (S n))) with
    (match split_first sep s with
     | None => [s]
     | Some (a, b) => a :: SplitN b sep (S n)
     end).
  destruct (split_first sep s) as [[a b]|] eqn:Hs.
  - apply split_first_Some in Hs as [-> Ha]. apply split_first_None in Ha.
    destruct (IH b) as [Hl Hp].
    assert (Hc : count_sep sep (a ++ String sep b) = S (count_sep sep b)).
    { rewrite count_sep_app, Ha. simpl. by rewrite decide_True. }
    rewrite Hc. split; [rewrite length_cons, Hl; lia|].
    intros p Hlast. rewrite last_cons in Hlast.
    destruct (last (SplitN b sep (S n))) as [q|] eqn:Hq.
    + simplify_eq. rewrite (Hp p eq_refl). lia.
    + apply last_None in Hq. pose proof (SplitN_length b sep n) as Hn.
      rewrite Hq in Hn. simpl in Hn. lia.
  - apply split_first_None in Hs. rewrite Hs. simpl. split; [lia|].
    intros p [= <-]. lia.
Qed.

Lemma index_at_Ok parts (i : nat) p :
  parts !! i = Some p → index_at parts (Z.of_nat i) = Ok p.
Proof.
  intros Hp. unfold index_at. rewrite decide_True by lia.
  by rewrite Nat2Z.id, Hp.
Qed.

(** The last three of at least four pieces, and what the switch reads
    of them. *)
Lemma pieces_end (parts : list string) :
  2 < Z.of_nat (length parts) - 1 →
  ∃ front job build plast,
    parts = front ++ [job; build; plast] ∧ front ≠ [] ∧
    parts !! (length front) = Some job ∧
    parts !! (length front + 1)%nat = Some build ∧
    Z.of_nat (length parts) - 1 = Z.of_nat (length front + 2) ∧
    index_at parts (Z.of_nat (length front + 2)) = Ok plast ∧
    index_at parts (Z.of_nat (length front + 2) - 2) = Ok job ∧
    index_at parts (Z.of_nat (length front + 2) - 1) = Ok build ∧
    take (Z.to_nat (Z.of_nat (length front + 2))) parts = front ++ [job; build].
Proof.
  intros Hl.
  pose proof (take_drop (length parts - 3) parts) as Htd.
  assert (Hd : length (drop (length parts - 3) parts) = 3%nat)
    by (rewrite length_drop; lia).
  assert (Ht : length (take (length parts - 3) parts) = (length parts - 3)%nat)
    by (rewrite length_take; lia).
  destruct (drop (length parts - 3) parts) as [|job [|build [|plast [|]]]];
    simpl in Hd; try lia.
  set (front := take (length parts - 3) parts) in *.
  assert (Hj : parts !! length front = Some job).
  { rewrite <-Htd. rewrite lookup_app_r by lia. by rewrite Nat.sub_diag. }
  assert (Hb : parts !! (length front + 1)%nat = Some build).
  { rewrite <-Htd. rewrite lookup_app_r by lia.
    by replace (length front + 1 - length front)%nat with 1%nat by lia. }
  assert (Hp : parts !! (length front + 2)%nat = Some plast).
  { rewrite <-Htd. rewrite lookup_app_r by lia.
    by replace (length front + 2 - length front)%nat with 2%nat by lia. }
  exists front, job, build, plast. split_and!; try done.
  - intros Hf. rewrite Hf in Ht. simpl in Ht. lia.
  - lia.
  - by apply index_at_Ok.
  - replace (Z.of_nat (length front + 2) - 2) with (Z.of_nat (length front))
      by lia.
    by apply index_at_Ok.
  - replace (Z.of_nat (length front + 2) - 1)
      with (Z.of_nat (length front + 1)) by lia.
    by apply index_at_Ok.
  - rewrite Nat2Z.id, <-Htd.
    change [job; build; plast] with ([job; build] ++ [plast]).
    rewrite app_assoc.
    replace (length front + 2)%nat with (length (front ++ [job; build]))
      by (rewrite length_app; simpl; lia).
    apply take_app_length.
Qed.

(** The first four of at least five pieces. *)
Lemma pieces_start (parts : list string) :
  3 < Z.of_nat (length parts) - 1 →
  ∃ p0 p1 p2 p3 rest,
    index_at parts 2 = Ok p2 ∧ index_at parts 3 = Ok p3 ∧
    String.concat "/" parts
      = (p0 ++ "/" ++ p1 ++ "/" ++ p2 ++ "/" ++ p3 ++ "/" ++ rest)%string.
Proof.
  intros Hl.
  destruct parts as [|p0 [|p1 [|p2 [|p3 [|p4 r]]]]]; simpl in Hl; try lia.
  exists p0, p1, p2, p3, (String.concat "/" (p4 :: r)).
  split_and!; reflexivity.
Qed.


(** X5: a name of fewer than three or of more than seven separators is
    shown as it is, whatever its file: the name is split into at most
    eight pieces, and beyond that the last piece is no file name but a
    path.  A name shown as that of a pull request job has at least four
    separators. *)
Theorem classify_depth name :
  ((count_sep Separator name < 3 ∨ 7 < count_sep Separator name)%nat →
   classify name = Ok (HPlain name)) ∧
  (∀ filename pr prefix label,
     classify name = Ok (HPull filename pr prefix label) →
     (4 ≤ count_sep Separator name ≤ 7)%nat).
Proof.
  destruct (SplitN_count name Separator 7) as [Hlen Hlast].
  assert (Hplain : (count_sep Separator name < 3 ∨ 7 < count_sep Separator name)%nat →
                   classify name = Ok (HPlain name)).
  { intros Hc. unfold classify. cbv zeta.
    destruct (decide (2 < _)) as [Hl|]; [|done].
    destruct Hc as [Hc|Hc]; [exfalso; lia|].
    destruct (pieces_end _ Hl)
      as (front & job & build & plast & Hparts & _ & _ & _ & -> & -> & _).
    cbn [res_bind].
    destruct (decide (plast = "junit.failures" ∨ plast = "build-log.txt"))
      as [Hf|]; [|done].
    specialize (Hlast plast). rewrite Hparts in Hlast.
    change [job; build; plast] with ([job; build] ++ [plast]) in Hlast.
    rewrite app_assoc, last_snoc in Hlast. specialize (Hlast eq_refl).
    assert (count_sep Separator plast = 0%nat) by (by destruct Hf as [-> | ->]).
    exfalso. lia. }
  split; [done|].
  intros filename pr prefix label Hc.
  destruct (decide (count_sep Separator name < 3 ∨ 7 < count_sep Separator name)%nat)
    as [Hd|Hd]; [by rewrite Hplain in Hc|].
  split; [|lia].
  destruct (decide (count_sep Separator name = 3%nat)) as [H3|]; [|lia].
  exfalso. unfold classify in Hc. cbv zeta in Hc.
  rewrite Hlen, H3 in Hc. change (Z.of_nat (8 `min` 4) - 1) with 3 in Hc.
  rewrite decide_True, (decide_False (P := 3 < 3)) in Hc by lia.
  cbn [res_bind] in Hc.
  destruct (index_at _ 3) as [plast| |]; [|done..]. cbn [res_bind] in Hc.
  destruct (decide (plast = _ ∨ _)); [|done].
  destruct (index_at _ (3 - 2)); [|done..]. cbn [res_bind] in Hc.
  destruct (index_at _ (3 - 1)); [|done..]. done.
Qed.

(* ================================================================== *)
(** * Further properties: the two renderers                            *)
(* ================================================================== *)

Lemma int_wrap_id x : - 2 ^ 63 ≤ x < 2 ^ 63 → int_wrap x = x.
Proof. intros Hx. unfold int_wrap. rewrite Z.mod_small; lia. Qed.

Lemma nested_app n m : nested (n + m) = nested n ++ nested m.
Proof.
  unfold nested. induction n as [|n IH]; [done|].
  simpl. by rewrite IH.
Qed.

Lemma ELine_brackets lines : filter is_bracket (ELine <$> lines) = [].
Proof.
  induction lines as [|l lines IH]; [done|]. rewrite fmap_cons, filter_cons.
  destruct (decide (is_bracket (ELine l))) as [[?|?]|_]; done.
Qed.

Lemma ELine_headings lines : headings (ELine <$> lines) = [].
Proof. by induction lines. Qed.

Lemma ELine_written lines : written_lines (ELine <$> lines) = lines.
Proof.
  unfold written_lines. induction lines as [|l lines IH]; [done|].
  simpl. by f_equal.
Qed.

Lemma TrimRight_space_idemp s :
  TrimRight_space (TrimRight_space s) = TrimRight_space s.
Proof.
  induction s as [|c s IH]; [done|]. simpl.
  destruct (decide (c = _ ∧ TrimRight_space s = EmptyString)) as [?|Hn]; [done|].
  simpl. rewrite IH. by rewrite decide_False.
Qed.

Lemma TrimRight_space_split s :
  ∃ t, s = (TrimRight_space s ++ t)%string ∧ TrimRight_space t = EmptyString.
Proof.
  induction s as [|c s (t & Hs & Ht)]; [by exists EmptyString|]. simpl.
  destruct (decide (c = _ ∧ TrimRight_space s = EmptyString)) as [[-> He]|Hn].
  - exists (String (Ascii.ascii_of_nat 32) s). split; [done|].
    simpl. by rewrite decide_True.
  - exists t. split; [|done]. rewrite app_String. by rewrite <-Hs.
Qed.

Lemma cut_trailing_empty_id lines :
  Forall (λ line, String.length line ≠ 0%nat) lines →
  cut_trailing_empty lines = lines.
Proof.
  induction 1 as [|l lines Hl _ IH]; [done|]. simpl. rewrite IH.
  by rewrite decide_False by (intros [_ ?]; done).
Qed.

(** X6: of the two loops that [renderWithContext] runs over the lines
    of a match, the second, which cuts empty lines off the end, never
    removes a line, since the first has dropped every empty one: the
    lines written are the matches with the spaces at their right end
    trimmed, less those that are empty then, in their order.  A line
    written is not empty, has no space at its end, and is a match less a
    run of spaces. *)
Theorem match_lines_trimmed matches :
  match_lines matches
    = filter (λ line, String.length line ≠ 0%nat) (TrimRight_space <$> matches) ∧
  ∀ line, line ∈ match_lines matches →
    line ≠ EmptyString ∧ TrimRight_space line = line ∧
    ∃ m t, m ∈ matches ∧ m = (line ++ t)%string ∧ TrimRight_space t = EmptyString.
Proof.
  assert (Hm : match_lines matches
    = filter (λ line, String.length line ≠ 0%nat) (TrimRight_space <$> matches)).
  { unfold match_lines. apply cut_trailing_empty_id.
    apply Forall_forall. by intros l [? _]%list_elem_of_filter. }
  split; [done|]. rewrite Hm. intros line [Hl Hin]%list_elem_of_filter.
  apply list_elem_of_fmap in Hin as (m & -> & Hin).
  split_and!.
  - by intros He; rewrite He in Hl.
  - apply TrimRight_space_idemp.
  - destruct (TrimRight_space_split m) as (t & Ht & Hs). by exists m, t.
Qed.

Section RendererProofs.

Variable HTMLEscapeString : string → string.

Local Abbreviation context_fn := (context_fn HTMLEscapeString).
Local Abbreviation renderWithContext := (renderWithContext HTMLEscapeString).
Local Abbreviation summary_fn := (summary_fn HTMLEscapeString).
Local Abbreviation renderSummary := (renderSummary HTMLEscapeString).

Lemma classify_Ok name : ∃ h, classify name = Ok h.
Proof.
  unfold classify. cbv zeta.
  destruct (decide (2 < _)) as [Hl|]; [|by eexists].
  destruct (pieces_end _ Hl) as (front & job & build & plast & Hparts & _ & _ & _
                                 & -> & -> & -> & -> & _).
  cbn [res_bind]. destruct (decide (plast = _ ∨ _)); [|by eexists].
  destruct (decide (3 < _)) as [H3|]; [|by eexists].
  destruct (pieces_start (SplitN name Separator 8)) as (? & ? & p2 & p3 & ? & -> & H3' & _).
  { rewrite Hparts, length_app. simpl. lia. }
  cbn [res_bind]. destruct (bool_decide _); [|by eexists].
  rewrite H3'. by eexists.
Qed.

(** One call of the function of [renderWithContext]. *)
Lemma context_fn_step st c :
  0 ≤ rs_count st < 2 ^ 63 - 1 →
  ∃ st1, context_fn st c = Ok st1 ∧
    rs_lastName st1 = gc_name c ∧
    rs_count st1
      = rs_count st + Z.of_nat (groups_from (rs_lastName st) [gc_name c]) ∧
    filter is_bracket (rs_out st1) ++ closing (rs_count st1)
      = (filter is_bracket (rs_out st) ++ closing (rs_count st))
        ++ nested (groups_from (rs_lastName st) [gc_name c]) ∧
    length (headings (rs_out st1))
      = (length (headings (rs_out st))
         + groups_from (rs_lastName st) [gc_name c])%nat ∧
    written_lines (rs_out st1)
      = written_lines (rs_out st) ++ match_lines (gc_matches c).
Proof.
  intros Hc. unfold context_fn. cbv zeta.
  destruct (classify_Ok (gc_name c)) as [h ->].
  rewrite (int_wrap_id (rs_count st + 1)) by lia.
  set (tail := if decide (gc_moreLines c > 0) then [EMore (gc_moreLines c)] else []).
  assert (Ht : filter is_bracket tail = [] ∧ headings tail = [] ∧
               written_lines tail = []).
  { unfold tail. by case_decide. }
  destruct Ht as (Ht1 & Ht2 & Ht3).
  set (out := if decide (rs_count st = 5 ∨ Z.rem (rs_count st) 50 = 0)
              then rs_out st ++ [EFlush] else rs_out st).
  assert (Ho : filter is_bracket out = filter is_bracket (rs_out st) ∧
               headings out = headings (rs_out st) ∧
               written_lines out = written_lines (rs_out st)).
  { unfold out, headings, written_lines. case_decide; [|done].
    rewrite filter_app, !omap_app. simpl. by rewrite !app_nil_r. }
  destruct Ho as (Ho1 & Ho2 & Ho3).
  unfold groups_from.
  destruct (decide (rs_lastName st = gc_name c)) as [Hn|Hn].
  - cbn [res_bind]. eexists. split; [done|]. cbn [rs_lastName rs_count rs_out].
    unfold headings, written_lines in *.
    rewrite !filter_app, !omap_app, ELine_brackets, Ht1, Ho1.
    change (omap _ (ELine <$> ?l)) with (headings (ELine <$> l)) at 1.
    rewrite ELine_headings.
    change (omap _ (ELine <$> ?l)) with (written_lines (ELine <$> l)).
    rewrite ELine_written, Ht2, Ht3, Ho2, Ho3. simpl.
    rewrite !app_nil_r, Z.add_0_r, Nat.add_0_r. done.
  - cbn [res_bind]. eexists. split; [done|]. cbn [rs_lastName rs_count rs_out].
    unfold headings, written_lines in *.
    rewrite !filter_app, !omap_app, ELine_brackets, Ht1.
    change (omap _ (ELine <$> ?l)) with (headings (ELine <$> l)) at 1.
    rewrite ELine_headings.
    change (omap _ (ELine <$> ?l)) with (written_lines (ELine <$> l)).
    rewrite ELine_written, Ht2, Ht3.
    unfold closing. rewrite (decide_True (P := rs_count st + 1 > 0)) by lia.
    destruct (decide (rs_count st > 0)).
    + rewrite filter_app, !omap_app, Ho1, Ho2, Ho3. simpl.
      rewrite !app_nil_r, !length_app. simpl.
      split_and!; try done. by rewrite <-!app_assoc.
    + rewrite Ho1, Ho2, Ho3. simpl.
      rewrite !app_nil_r, !length_app. simpl.
      split_and!; try done. by rewrite <-!app_assoc.
Qed.

Lemma groups_from_le lastName names :
  (groups_from lastName names ≤ length names)%nat.
Proof.
  revert lastName. induction names as [|n names IH]; intros lastName; simpl; [lia|].
  specialize (IH n). case_decide; lia.
Qed.

Lemma groups_from_0 lastName names :
  groups_from lastName names = 0%nat ↔ Forall (λ n, n = lastName) names.
Proof.
  revert lastName. induction names as [|n names IH]; intros lastName; simpl.
  - split; [constructor|done].
  - rewrite Forall_cons. case_decide as Hn.
    + subst n. rewrite Nat.add_0_l, IH. tauto.
    + split; [lia|]. by intros [-> _].
Qed.

(** All calls of the function of [renderWithContext]. *)
Lemma run_context calls st :
  0 ≤ rs_count st → rs_count st + Z.of_nat (length calls) < 2 ^ 63 →
  ∃ st', run_fn context_fn calls st = Ok st' ∧
    rs_count st'
      = rs_count st + Z.of_nat (groups_from (rs_lastName st) (gc_name <$> calls)) ∧
    filter is_bracket (rs_out st') ++ closing (rs_count st')
      = (filter is_bracket (rs_out st) ++ closing (rs_count st))
        ++ nested (groups_from (rs_lastName st) (gc_name <$> calls)) ∧
    length (headings (rs_out st'))
      = (length (headings (rs_out st))
         + groups_from (rs_lastName st) (gc_name <$> calls))%nat ∧
    written_lines (rs_out st')
      = written_lines (rs_out st)
        ++ mjoin ((λ c, match_lines (gc_matches c)) <$> calls).
Proof.
  revert st. induction calls as [|c calls IH]; intros st H0 Hb.
  { exists st. simpl. by rewrite !app_nil_r, Z.add_0_r, Nat.add_0_r. }
  rewrite length_cons in Hb.
  destruct (context_fn_step st c) as (st1 & Hs & Hn & Hc & HB & HH & HW); [lia|].
  pose proof (groups_from_le (rs_lastName st) [gc_name c]) as Hle.
  change (length [gc_name c]) with 1%nat in Hle.
  destruct (IH st1) as (st' & Hr & Hc' & HB' & HH' & HW'); [lia..|].
  exists st'. simpl run_fn. rewrite Hs. cbn [res_bind].
  split; [done|]. rewrite HB', HH', HW', Hc', HB, HH, HW, Hc, Hn.
  rewrite fmap_cons. simpl. rewrite !Nat.add_0_r.
  set (g := groups_from (gc_name c) (gc_name <$> calls)).
  set (d := if decide (rs_lastName st = gc_name c) then 0%nat else 1%nat).
  rewrite nested_app, <-!app_assoc. split_and!; try done; lia.
Qed.

(** X7: [renderWithContext] never panics and hands on the error of the
    search as it is.  The count it returns is the number of results: the
    calls whose name differs from the name of the call before, or, for
    the first call, from the empty name; so it is at most the number of
    calls, and it is zero exactly when every name is empty.  What it
    writes opens and closes that many results, one after the other and
    each with one heading, holds the lines of all the matches in their
    order, and ends with the flush. *)
Theorem renderWithContext_results calls err :
  Z.of_nat (length calls) < 2 ^ 63 →
  let results := groups_from "" (gc_name <$> calls) in
  ∃ out,
    renderWithContext calls err = Ok (Z.of_nat results, err, out) ∧
    (results ≤ length calls)%nat ∧
    (results = 0%nat ↔ Forall (λ c, gc_name c = "") calls) ∧
    filter is_bracket out = nested results ∧
    length (headings out) = results ∧
    written_lines out = mjoin ((λ c, match_lines (gc_matches c)) <$> calls) ∧
    last out = Some EFlush.
Proof.
  intros Hb results. unfold renderWithContext.
  destruct (run_context calls (mkRenderState 0 0 "" []))
    as (st & -> & Hc & HB & HH & HW); [simpl; lia..|].
  simpl in Hc, HB, HH, HW. fold results in Hc, HB, HH.
  cbn [res_bind]. rewrite Hc. eexists. split; [done|].
  split_and!.
  - unfold results. etrans; [apply groups_from_le|]. by rewrite length_fmap.
  - unfold results. rewrite groups_from_0, Forall_fmap. done.
  - rewrite <-HB, Hc. unfold closing.
    case_decide; rewrite !filter_app; simpl; by rewrite ?app_nil_r.
  - rewrite <-HH. unfold headings.
    case_decide; rewrite !omap_app; simpl; by rewrite ?app_nil_r.
  - rewrite <-HW. unfold written_lines.
    case_decide; rewrite !omap_app; simpl; by rewrite ?app_nil_r.
  - apply last_snoc.
Qed.

Lemma sum_shown_app (l1 l2 : list Z) :
  foldr Z.add 0 (l1 ++ l2) = foldr Z.add 0 l1 + foldr Z.add 0 l2.
Proof. induction l1 as [|x l1 IH]; simpl; lia. Qed.

(** One call of the function of [renderSummary]. *)
Lemma summary_fn_step st c :
  0 ≤ ss_count st < 2 ^ 63 - 1 →
  0 ≤ ss_currentLines st < 2 ^ 63 - 1 →
  (ss_count st > 0 → 1 ≤ ss_currentLines st) →
  Forall (λ n, 1 ≤ n) (shown_counts (ss_out st)) →
  ∃ st1, summary_fn st c = Ok st1 ∧
    ss_lastName st1 = gc_name c ∧
    ss_count st1
      = ss_count st + Z.of_nat (groups_from (ss_lastName st) [gc_name c]) ∧
    1 ≤ ss_currentLines st1 ≤ ss_currentLines st + 1 ∧
    Forall (λ n, 1 ≤ n) (shown_counts (ss_out st1)) ∧
    foldr Z.add 0 (shown_counts (ss_out st1)) + ss_currentLines st1
      = foldr Z.add 0 (shown_counts (ss_out st)) + ss_currentLines st + 1 ∧
    (length (shown_counts (ss_out st1)) + length (closing (ss_count st1))
     = length (shown_counts (ss_out st)) + length (closing (ss_count st))
       + groups_from (ss_lastName st) [gc_name c])%nat ∧
    filter is_bracket (ss_out st1) ++ closing (ss_count st1)
      = (filter is_bracket (ss_out st) ++ closing (ss_count st))
        ++ nested (groups_from (ss_lastName st) [gc_name c]) ∧
    length (headings (ss_out st1))
      = (length (headings (ss_out st))
         + groups_from (ss_lastName st) [gc_name c])%nat ∧
    written_lines (ss_out st1) = written_lines (ss_out st).
Proof.
  intros Hc Hl Hpos Hshown. unfold summary_fn. cbv zeta.
  destruct (classify_Ok (gc_name c)) as [h ->].
  rewrite (int_wrap_id (ss_count st + 1)) by lia.
  set (out := if decide (ss_count st = 5 ∨ Z.rem (ss_count st) 50 = 0)
              then ss_out st ++ [EFlush] else ss_out st).
  assert (Ho : filter is_bracket out = filter is_bracket (ss_out st) ∧
               headings out = headings (ss_out st) ∧
               written_lines out = written_lines (ss_out st) ∧
               shown_counts out = shown_counts (ss_out st)).
  { unfold out, headings, written_lines, shown_counts. case_decide; [|done].
    rewrite filter_app, !omap_app. simpl. by rewrite !app_nil_r. }
  destruct Ho as (Ho1 & Ho2 & Ho3 & Ho4).
  unfold groups_from.
  destruct (decide (ss_lastName st = gc_name c)) as [Hn|Hn].
  - cbn [res_bind]. rewrite (int_wrap_id (ss_currentLines st + 1)) by lia.
    eexists. split; [done|].
    cbn [ss_lastName ss_count ss_out ss_currentLines].
    rewrite Ho1, Ho2, Ho3, Ho4. simpl.
    rewrite !app_nil_r, Z.add_0_r, !Nat.add_0_r.
    split_and!; try done; lia.
  - destruct (decide (ss_count st > 0)) as [Hg|Hg].
    + cbn [res_bind]. rewrite (int_wrap_id (0 + 1)) by lia.
      eexists. split; [done|].
      cbn [ss_lastName ss_count ss_out ss_currentLines].
      unfold closing. rewrite (decide_True (P := ss_count st + 1 > 0)) by lia.
      rewrite (decide_True (P := ss_count st > 0)) by done.
      unfold headings, written_lines, shown_counts in *.
      rewrite !filter_app, !omap_app, Ho1, Ho2, Ho3, Ho4. simpl.
      rewrite !app_nil_r, !length_app, sum_shown_app. simpl.
      split_and!; try done; try lia.
      * apply Forall_app. split; [done|]. constructor; [lia|constructor].
      * by rewrite <-!app_assoc.
    + cbn [res_bind]. rewrite (int_wrap_id (ss_currentLines st + 1)) by lia.
      eexists. split; [done|].
      cbn [ss_lastName ss_count ss_out ss_currentLines].
      unfold closing. rewrite (decide_True (P := ss_count st + 1 > 0)) by lia.
      rewrite (decide_False (P := ss_count st > 0)) by done.
      unfold headings, written_lines, shown_counts in *.
      rewrite !filter_app, !omap_app, Ho1, Ho2, Ho3, Ho4. simpl.
      rewrite !app_nil_r, !length_app. simpl.
      split_and!; try done; try lia.
      by rewrite <-!app_assoc.
Qed.

(** All calls of the function of [renderSummary]. *)
Lemma run_summary calls st :
  0 ≤ ss_count st → ss_count st + Z.of_nat (length calls) < 2 ^ 63 →
  0 ≤ ss_currentLines st →
  ss_currentLines st + Z.of_nat (length calls) < 2 ^ 63 →
  (ss_count st > 0 → 1 ≤ ss_currentLines st) →
  Forall (λ n, 1 ≤ n) (shown_counts (ss_out st)) →
  ∃ st', run_fn summary_fn calls st = Ok st' ∧
    ss_count st'
      = ss_count st + Z.of_nat (groups_from (ss_lastName st) (gc_name <$> calls)) ∧
    (ss_count st' > 0 → 1 ≤ ss_currentLines st') ∧
    Forall (λ n, 1 ≤ n) (shown_counts (ss_out st')) ∧
    foldr Z.add 0 (shown_counts (ss_out st')) + ss_currentLines st'
      = foldr Z.add 0 (shown_counts (ss_out st)) + ss_currentLines st
        + Z.of_nat (length calls) ∧
    (length (shown_counts (ss_out st')) + length (closing (ss_count st'))
     = length (shown_counts (ss_out st)) + length (closing (ss_count st))
       + groups_from (ss_lastName st) (gc_name <$> calls))%nat ∧
    filter is_bracket (ss_out st') ++ closing (ss_count st')
      = (filter is_bracket (ss_out st) ++ closing (ss_count st))
        ++ nested (groups_from (ss_lastName st) (gc_name <$> calls)) ∧
    length (headings (ss_out st'))
      = (length (headings (ss_out st))
         + groups_from (ss_lastName st) (gc_name <$> calls))%nat ∧
    written_lines (ss_out st') = written_lines (ss_out st).
Proof.
  revert st. induction calls as [|c calls IH]; intros st H0 Hb Hl0 Hlb Hpos Hshown.
  { exists st. simpl. rewrite !app_nil_r, !Z.add_0_r, !Nat.add_0_r. done. }
  rewrite length_cons in Hb, Hlb.
  destruct (summary_fn_step st c)
    as (st1 & Hs & Hn & Hc & Hcur & Hsh & Hsum & Hlen & HB & HH & HW);
    [lia|lia|done|done|].
  pose proof (groups_from_le (ss_lastName st) [gc_name c]) as Hle.
  change (length [gc_name c]) with 1%nat in Hle.
  destruct (IH st1)
    as (st' & Hr & Hc' & Hpos' & Hsh' & Hsum' & Hlen' & HB' & HH' & HW');
    [lia|lia|lia|lia|lia|done|].
  exists st'. simpl run_fn. rewrite Hs. cbn [res_bind].
  split; [done|]. rewrite HB', HH', HW', HB, HH, HW, Hn.
  rewrite Hn in Hc', Hlen'. rewrite fmap_cons, length_cons.
  simpl groups_from in *. rewrite !Nat.add_0_r in *.
  set (g := groups_from (gc_name c) (gc_name <$> calls)) in *.
  set (d := if decide (ss_lastName st = gc_name c) then 0%nat else 1%nat) in *.
  rewrite nested_app, <-!app_assoc. split_and!; try done; lia.
Qed.

(** X8: [renderSummary] never panics, hands on the error of the search
    as it is, and returns the same count of results as
    [renderWithContext].  It writes no line of a match; it opens and
    closes one result after the other, each with one heading and one
    number of matches, which is at least one; and when there is a result
    the numbers add up to the number of calls, so that calls with the
    empty name that come first are counted with the first result. *)
Theorem renderSummary_counts calls err :
  Z.of_nat (length calls) < 2 ^ 63 →
  let results := groups_from "" (gc_name <$> calls) in
  ∃ out,
    renderSummary calls err = Ok (Z.of_nat results, err, out) ∧
    length (shown_counts out) = results ∧
    Forall (λ n, 1 ≤ n) (shown_counts out) ∧
    (results ≠ 0%nat →
     foldr Z.add 0 (shown_counts out) = Z.of_nat (length calls)) ∧
    filter is_bracket out = nested results ∧
    length (headings out) = results ∧
    written_lines out = [] ∧
    last out = Some EFlush.
Proof.
  intros Hb results. unfold renderSummary.
  destruct (run_summary calls (mkSummaryState 0 0 "" []))
    as (st & -> & Hc & Hpos & Hsh & Hsum & Hlen & HB & HH & HW);
    [simpl; try lia; try constructor..|].
  simpl in Hc, Hsum, Hlen, HB, HH, HW. fold results in Hc, Hlen, HB, HH.
  cbn [res_bind]. replace (Z.of_nat results) with (ss_count st) by lia.
  eexists. split; [done|].
  unfold closing in Hlen, HB. unfold shown_counts, headings, written_lines in *.
  destruct (decide (ss_count st > 0)) as [Hg|Hg].
  - cbv beta iota.
    rewrite !filter_app, !omap_app, !length_app, sum_shown_app, HW. simpl.
    rewrite !app_nil_r. simpl in Hlen.
    split_and!; try done; try lia.
    + apply Forall_app. split; [done|]. constructor; [by apply Hpos|constructor].
    + intros _. rewrite sum_shown_app. simpl. lia.
    + apply last_snoc.
  - cbv beta iota. rewrite !filter_app, !omap_app, HW. simpl.
    rewrite !app_nil_r. simpl in Hlen. rewrite app_nil_r in HB.
    split_and!; try done; try lia.
    apply last_snoc.
Qed.

End RendererProofs.

(* ================================================================== *)
(** * Further properties: the job lister                               *)
(* ================================================================== *)

Section ListerExtras.

Context {I : Type} `{Indexer I}.
Variable strconv_Quote : string → string.

Local Abbreviation Lister_Get := (Lister_Get strconv_Quote).

(** X10: [Get] never waits, and it panics in one case only: the indexer
    reports no error and says the key is there, and the item it hands
    over is not a job; this holds of an item of another type and of no
    item at all.  When the indexer reports an error or says the key is
    not there, the item is not looked at. *)
Theorem Lister_Get_panics (s : Lister I) (id : string) :
  (Lister_Get s id).2 ≠ Blocked ∧
  ((Lister_Get s id).2 = Panic ↔
   ∃ item, GetByKey (indexer s) id = (item, true, None) ∧
           ∀ j, item ≠ Some (JobObject j)).
Proof.
  unfold Lister_Get.
  destruct (GetByKey (indexer s) id) as [[item found] [e|]]; simpl.
  { split; [done|]. split; [done|]. by intros (? & [=] & _). }
  destruct found; simpl.
  - destruct item as [[j| | |]|]; simpl; (split; [done|]).
    + split; [done|]. intros (? & [= <-] & Hn). by destruct (Hn j).
    + split; [|done]. intros _. by eexists.
    + split; [|done]. intros _. by eexists.
    + split; [|done]. intros _. by eexists.
    + split; [|done]. intros _. by eexists.
  - split; [done|]. split; [done|]. by intros (? & [=] & _).
Qed.

End ListerExtras.

(* ================================================================== *)
(** * The further properties on sample values                          *)
(* ================================================================== *)

Lemma handleIndex_params_checked_witness :
  ∃ p, handleIndex_params sample_escape sample_Atoi (pretty : Z → string)
         sample_ParseDuration show_ns (mkOptions (6 * Hour)) sample_request
       = inr p ∧
       -1 ≤ ix_Context (pp_index p) ≤ 15 ∧
       ix_SearchType (pp_index p) ∈ ["junit"; "build-log"; "all"] ∧
       ix_MaxAge (pp_index p) ≤ 6 * Hour ∧
       ix_Search (pp_index p) = "timeout".
Proof.
  destruct (handleIndex_params sample_escape sample_Atoi (pretty : Z → string)
              sample_ParseDuration show_ns (mkOptions (6 * Hour)) sample_request)
    as [r|p] eqn:E; [vm_compute in E; discriminate E|].
  exists p. split; [done|].
  destruct (handleIndex_params_checked _ _ _ _ _ _ _ _ E)
    as (_ & Hc & Ht & _ & Ha & Hs & _).
  split_and!; [apply Hc|apply Hc|done|by apply Ha|done].
Defined.

Lemma renderWithContext_results_witness :
  Z.of_nat (length sample_calls) < 2 ^ 63 ∧
  ∃ out, renderWithContext sample_escape sample_calls None = Ok (2, None, out) ∧
         filter is_bracket out = [EOpen; EClose; EOpen; EClose] ∧
         written_lines out
         = ["timeout waiting"; "  at step 3"; "timeout again"; "timeout"].
Proof.
  assert (Hb : Z.of_nat (length sample_calls) < 2 ^ 63) by reflexivity.
  split; [done|].
  destruct (renderWithContext_results sample_escape sample_calls None Hb)
    as (out & Hr & _ & _ & HB & _ & HW & _).
  exists out. split_and!; [exact Hr|exact HB|exact HW].
Defined.

Lemma renderSummary_counts_witness :
  Z.of_nat (length sample_calls) < 2 ^ 63 ∧
  ∃ out, renderSummary sample_escape sample_calls None = Ok (2, None, out) ∧
         length (shown_counts out) = 2%nat ∧
         foldr Z.add 0 (shown_counts out) = 3.
Proof.
  assert (Hb : Z.of_nat (length sample_calls) < 2 ^ 63) by reflexivity.
  split; [done|].
  destruct (renderSummary_counts sample_escape sample_calls None Hb)
    as (out & Hr & Hl & _ & Hsum & _).
  exists out. split_and!; [exact Hr|exact Hl|by apply Hsum].
Defined.

(** Sample names: a junit file of a pull request job, the log of a
    periodic job, a file that lies too deep and one that lies too high. *)
Lemma sample_names_classified :
  classify "logs/origin/pull/123/e2e-aws/77/junit.failures"
    = Ok (HPull "junit" "123" "logs/origin/pull/123/e2e-aws/77" "e2e-aws #77") ∧
  classify "logs/periodic/e2e-gcp/9/build-log.txt"
    = Ok (HBuild "build-log.txt" "logs/periodic/e2e-gcp/9" "e2e-gcp #9") ∧
  classify "a/b/c/d/e/f/g/h/build-log.txt"
    = Ok (HPlain "a/b/c/d/e/f/g/h/build-log.txt") ∧
  classify "e2e-gcp/9/build-log.txt" = Ok (HPlain "e2e-gcp/9/build-log.txt").
Proof. by vm_compute. Qed.

